(** * CitiBikeAnalysis: the notebook's batch pipeline, embedded and verified

    The notebook [CitiBikeAnalysis.ipynb] is a PySpark job in five steps:
    - select and cast six columns, then [df.na.drop()], printing the number
      of rows dropped;
    - [tripduration], the filter [tripduration > 1800] and [num_trips];
    - [expected_revenue = num_trips * 0.2];
    - the [distance] column (Haversine formula, [R = 3959]);
    - [bucket_counts] (a [groupBy] over a [when] chain, then [count]) and
      the pandas [sort_values] over the categorical [bucket_order].

    Spark's [DoubleType] and Python's [float] are IEEE binary64: they are
    embedded as Rocq's primitive [float].  Timestamps are microseconds
    since the epoch ([Z]), counts are [Z], a nullable cell is an [option].
    The Column expression of [distance] is written once, over an interface
    of column operations, and read twice: in binary64 (what Spark computes)
    and in exact real arithmetic (what the formula means). *)

From Stdlib Require Import ZArith List String Bool Lia Floats.
From Stdlib Require Import Reals Lra Permutation Sorting.Sorted.
Import ListNotations.

(** * Part I: the embedding *)

(** ** Spark's order on doubles *)

Module SparkDouble.

(** An integer literal of Python or of a Column expression, promoted to a
    double (round to nearest, ties to even). *)
Definition lit (z : Z) : float :=
  SF2Prim (binary_normalize prec emax z 0 false).

(** Spark compares doubles with [nanSafeCompareDoubles]: [NaN] equals
    itself and is larger than any other value; [-0.0] equals [0.0]. *)
Definition nanSafeCompareDoubles (x y : float) : comparison :=
  if (is_nan x && is_nan y) || (x =? y)%float then Eq
  else if is_nan x then Gt
  else if is_nan y then Lt
  else if (y <? x)%float then Gt
  else Lt.

(** [col > v] *)
Definition gt (x y : float) : bool :=
  match nanSafeCompareDoubles x y with Gt => true | _ => false end.

(** [col <= v] *)
Definition le (x y : float) : bool :=
  match nanSafeCompareDoubles x y with Gt => false | _ => true end.

(** The same comparison read on specification floats: the IEEE comparison,
    completed where IEEE says "not comparable". *)
Definition SFnanSafeCompare (s t : spec_float) : comparison :=
  match SFcompare s t with
  | Some c => c
  | None =>
      match s, t with
      | S754_nan, S754_nan => Eq
      | S754_nan, _ => Gt
      | _, _ => Lt
      end
  end.

End SparkDouble.

(** ** RecordLoader: select, cast, [na.drop] *)

Module RecordLoader.

(** A row of [df.select(col(..).cast(..), ...)]: a cell is [None] (SQL
    null) when the CSV field is absent or when its cast fails. *)
Record row := {
  started_at : option Z;
  ended_at : option Z;
  start_lat : option float;
  start_lng : option float;
  end_lat : option float;
  end_lng : option float
}.

(** A row that went through [na.drop()]: no cell is null. *)
Record trip := {
  t_started_at : Z;
  t_ended_at : Z;
  t_start_lat : float;
  t_start_lng : float;
  t_end_lat : float;
  t_end_lng : float
}.

(** What [DataFrameNaFunctions] counts as missing data: a null, and in a
    double column also a NaN. *)
Definition na_timestamp (c : option Z) : bool :=
  match c with None => true | Some _ => false end.

Definition na_double (c : option float) : bool :=
  match c with None => true | Some x => is_nan x end.

Definition has_na (r : row) : bool :=
  na_timestamp (started_at r) || na_timestamp (ended_at r) ||
  na_double (start_lat r) || na_double (start_lng r) ||
  na_double (end_lat r) || na_double (end_lng r).

Definition number (c : option float) : option float :=
  match c with
  | Some x => if is_nan x then None else Some x
  | None => None
  end.

(** One row through [na.drop()]: kept when all six cells hold a value. *)
Definition keep (r : row) : option trip :=
  match started_at r, ended_at r,
        number (start_lat r), number (start_lng r),
        number (end_lat r), number (end_lng r) with
  | Some s, Some e, Some a, Some b, Some c, Some d =>
      Some {| t_started_at := s; t_ended_at := e; t_start_lat := a;
              t_start_lng := b; t_end_lat := c; t_end_lng := d |}
  | _, _, _, _, _, _ => None
  end.

(** [df = df.na.drop()] *)
Fixpoint na_drop (df : list row) : list trip :=
  match df with
  | [] => []
  | r :: df' =>
      match keep r with
      | Some t => t :: na_drop df'
      | None => na_drop df'
      end
  end.

(** [df.count()] *)
Definition count {A : Type} (df : list A) : Z := Z.of_nat (List.length df).

(** [count_rows - df.count()], the number the notebook prints. *)
Definition dropped (df : list row) : Z :=
  let count_rows := count df in
  count_rows - count (na_drop df).

End RecordLoader.

(** ** GeoMath: duration and Haversine distance *)

Module GeoMath.
Import RecordLoader.

(** [(ended_at - started_at).cast("long")]: the interval in microseconds,
    divided by 1000000 with Java's truncating division. *)
Definition tripduration (t : trip) : Z :=
  Z.quot (t_ended_at t - t_started_at t) 1000000.

(** The operations a Column expression is built from. *)
Class ColumnOps (D : Type) := {
  literal : Z -> D;
  add : D -> D -> D;
  sub : D -> D -> D;
  mul : D -> D -> D;
  div : D -> D -> D;
  pow : D -> Z -> D;
  radians : D -> D;
  sin : D -> D;
  cos : D -> D;
  asin : D -> D;
  sqrt : D -> D
}.

(** [R = 3959  # Earth's radius in miles] *)
Definition R : Z := 3959.

Section Haversine.
Context {D : Type} `{ColumnOps D}.

(** The argument of [sqrt] in the notebook's expression. *)
Definition haversine_a (start_lat start_lng end_lat end_lng : D) : D :=
  add (pow (sin (div (sub (radians end_lat) (radians start_lat))
                     (literal 2))) 2)
      (mul (mul (cos (radians start_lat)) (cos (radians end_lat)))
           (pow (sin (div (sub (radians end_lng) (radians start_lng))
                          (literal 2))) 2)).

(** [R * 2 * asin(sqrt(...))]: Python multiplies the two integers
    first, the Column is multiplied by the literal [R * 2]. *)
Definition distance_expr (start_lat start_lng end_lat end_lng : D) : D :=
  mul (literal (R * 2))
      (asin (sqrt (haversine_a start_lat start_lng end_lat end_lng))).

(** The specification's [haversine_distance], in its own words (section 4.2):
    the two differences in radians, a, then [2 * radius * asin(sqrt a)]. *)
Definition haversine_distance (lat1 lng1 lat2 lng2 : D) (radius : Z) : D :=
  let dphi := sub (radians lat2) (radians lat1) in
  let dlambda := sub (radians lng2) (radians lng1) in
  let a := add (pow (sin (div dphi (literal 2))) 2)
               (mul (mul (cos (radians lat1)) (cos (radians lat2)))
                    (pow (sin (div dlambda (literal 2))) 2)) in
  mul (mul (literal 2) (literal radius)) (asin (sqrt a)).

(** The clamp the specification asks for, absent from the notebook. *)
Definition clamped_distance
    (clamp01 : D -> D) (lat1 lng1 lat2 lng2 : D) : D :=
  mul (literal (R * 2))
      (asin (sqrt (clamp01 (haversine_a lat1 lng1 lat2 lng2)))).
End Haversine.

(** The functions of [java.lang.Math] that Spark calls for [radians],
    [sin], [cos], [asin] and [**]; the JVM fixes them up to rounding,
    so they are a parameter of the binary64 reading. *)
Record MathLib := {
  toRadians : float -> float;
  math_sin : float -> float;
  math_cos : float -> float;
  math_asin : float -> float;
  math_pow : float -> float -> float
}.

(** Binary64: IEEE arithmetic and square root, [java.lang.Math] for the
    rest. *)
Definition binary64 (M : MathLib) : ColumnOps float := {|
  literal := SparkDouble.lit;
  add := PrimFloat.add;
  sub := PrimFloat.sub;
  mul := PrimFloat.mul;
  div := PrimFloat.div;
  pow := fun x n => math_pow M x (SparkDouble.lit n);
  radians := toRadians M;
  sin := math_sin M;
  cos := math_cos M;
  asin := math_asin M;
  sqrt := PrimFloat.sqrt
|}.

(** Exact real arithmetic. *)
Definition exact : ColumnOps Rdefinitions.R := {|
  literal := IZR;
  add := Rplus;
  sub := Rminus;
  mul := Rmult;
  div := Rdiv;
  pow := powerRZ;
  radians := fun x => (x * PI / 180)%R;
  sin := Rtrigo_def.sin;
  cos := Rtrigo_def.cos;
  asin := Ratan.asin;
  sqrt := R_sqrt.sqrt
|}.

(** The [distance] column of a trip, as Spark computes it. *)
Definition distance (M : MathLib) (t : trip) : float :=
  @distance_expr float (binary64 M)
    (t_start_lat t) (t_start_lng t) (t_end_lat t) (t_end_lng t).

Definition a_of (M : MathLib) (t : trip) : float :=
  @haversine_a float (binary64 M)
    (t_start_lat t) (t_start_lng t) (t_end_lat t) (t_end_lng t).

(** [Math.toRadians]: [angdeg * DEGREES_TO_RADIANS]. *)
Definition DEGREES_TO_RADIANS : float := 0x1.1df46a2529d39p-6%float.

(** A library known at finitely many arguments, [NaN] elsewhere. *)
Definition tabulated (tbl : list (float * float)) (x : float) : float :=
  match find (fun p => (fst p =? x)%float) tbl with
  | Some p => snd p
  | None => nan
  end.

(** Values of [Math.sin], [Math.cos] and [Math.asin] at the arguments the
    examples below visit.  Each is the correctly rounded value, and the
    exact value lies at least 0.2 ulp away from the nearest rounding
    boundary, so a library accurate to 0.7 ulp returns the same double.
    In decimal:
    - sin 1.5707963267948966 = 1.0
    - sin 1.186823891356144  = 0.9271838545667873
    - cos 0.3839724354387525 = 0.9271838545667874
    - cos 2.7576202181510405 = -0.9271838545667873
    - cos 0.7105724077059474 = 0.7579886370985023
    - asin 1.0 = 1.5707963267948966 *)
Definition sin_values : list (float * float) :=
  [ (0, 0);
    (0x1.921fb54442d18p+0, 1);
    (0x1.2fd3b0c77c70cp+0, 0x1.dab7d7997cb57p-1) ]%float.

Definition cos_values : list (float * float) :=
  [ (0, 1);
    (0x1.893011f31982ep-2, 0x1.dab7d7997cb58p-1);
    (0x1.60f9b305dfa12p+1, -0x1.dab7d7997cb57p-1);
    (0x1.6bd0258912f4ap-1, 0x1.8417162e27c5ap-1) ]%float.

Definition asin_values : list (float * float) :=
  [ (0, 0);
    (1, 0x1.921fb54442d18p+0) ]%float.

(** A math library for the examples: [Math.toRadians] and the square as
    the JVM computes them, the tabulated values for the rest. *)
Definition sample_math : MathLib := {|
  toRadians := fun x => (x * DEGREES_TO_RADIANS)%float;
  math_sin := tabulated sin_values;
  math_cos := tabulated cos_values;
  math_asin := tabulated asin_values;
  math_pow := fun x y => if (y =? 2)%float then (x * x)%float else nan
|}.

(** The clamp of the specification (section 4.2) on doubles. *)
Definition clamp01 (a : float) : float :=
  if (a <? 0)%float then 0%float
  else if (1 <? a)%float then 1%float
  else a.

(** A trip between two points; its timestamps play no part in the
    distance. *)
Definition trip_between (lat1 lng1 lat2 lng2 : float) : trip :=
  {| t_started_at := 0; t_ended_at := 0;
     t_start_lat := lat1; t_start_lng := lng1;
     t_end_lat := lat2; t_end_lng := lng2 |}.

End GeoMath.

(** ** Distance buckets *)

Module Buckets.
Import SparkDouble.
Local Open Scope string_scope.

(** The three guards of the [when] chain, in order. *)
Definition guard_0_1 (d : float) : bool := le d (lit 1).
Definition guard_2_4 (d : float) : bool := gt d (lit 1) && le d (lit 4).
Definition guard_4_9 (d : float) : bool := gt d (lit 4) && le d (lit 9).

(** [when(distance <= 1, "0-1")
      .when((distance > 1) & (distance <= 4), "2-4")
      .when((distance > 4) & (distance <= 9), "4-9")
      .otherwise("10+")] *)
Definition distance_bucket (d : float) : string :=
  if guard_0_1 d then "0-1"
  else if guard_2_4 d then "2-4"
  else if guard_4_9 d then "4-9"
  else "10+".

(** The range of the fourth bucket in the specification, (9, inf); the
    notebook reaches that bucket through [otherwise]. *)
Definition range_10_plus (d : float) : bool := gt d (lit 9).

(** The number of [true] among some answers. *)
Fixpoint how_many (answers : list bool) : nat :=
  match answers with
  | [] => 0
  | b :: rest => (if b then 1 else 0) + how_many rest
  end.

(** How a double can compare with 1, 4 and 9 at once. *)
Inductive threshold_case : comparison -> comparison -> comparison -> Prop :=
  | below_1  : threshold_case Lt Lt Lt
  | at_1     : threshold_case Eq Lt Lt
  | in_1_4   : threshold_case Gt Lt Lt
  | at_4     : threshold_case Gt Eq Lt
  | in_4_9   : threshold_case Gt Gt Lt
  | at_9     : threshold_case Gt Gt Eq
  | above_9  : threshold_case Gt Gt Gt.

End Buckets.

(** ** TripAggregator: long trips, revenue, bucket counts *)

Module TripAggregator.
Import SparkDouble RecordLoader GeoMath Buckets.
Local Open Scope string_scope.
Local Open Scope Z_scope.

(** [long_trips = df.filter(col("tripduration") > 1800)] *)
Definition long_trips (df : list trip) : list trip :=
  filter (fun t => 1800 <? tripduration t) df.

(** [num_trips = long_trips.count()] *)
Definition num_trips (df : list trip) : Z := count (long_trips df).

(** The specification's count: one for each record whose duration is
    strictly greater than the threshold. *)
Fixpoint count_longer_than (threshold : Z) (durations : list Z) : Z :=
  match durations with
  | [] => 0
  | d :: rest =>
      (if d >? threshold then 1 else 0) + count_longer_than threshold rest
  end.

(** [0.2], the double nearest to one fifth. *)
Definition per_trip_amount : float := 0x1.999999999999ap-3%float.

(** [expected_revenue = num_trips * 0.2]: Python converts the integer to
    a float and multiplies. *)
Definition expected_revenue (num_trips : Z) : float :=
  (lit num_trips * per_trip_amount)%float.

(** One more row for group [key]. *)
Fixpoint tally (key : string) (groups : list (string * Z))
  : list (string * Z) :=
  match groups with
  | [] => [(key, 1)]
  | (k, n) :: rest =>
      if String.eqb key k then (k, n + 1) :: rest
      else (k, n) :: tally key rest
  end.

(** [groupBy(key).count()]: one row for each key that occurs.  Spark
    returns the groups in no particular order; here they come in order
    of first occurrence, and the facts about the sorted table hold for
    every permutation of them. *)
Definition groupBy_count (keys : list string) : list (string * Z) :=
  fold_left (fun groups key => tally key groups) keys [].

(** The [count] of a group, 0 when the table has no row for it. *)
Fixpoint count_of (key : string) (groups : list (string * Z)) : Z :=
  match groups with
  | [] => 0
  | (k, n) :: rest => if String.eqb key k then n else count_of key rest
  end.

(** The number of rows that fall into a bucket. *)
Fixpoint occurrences (key : string) (keys : list string) : Z :=
  match keys with
  | [] => 0
  | k :: rest => (if String.eqb key k then 1 else 0) + occurrences key rest
  end.

(** [bucket_counts = df.groupBy(when(...) ... .alias("distance_bucket"))
    .count()], from the [distance] column. *)
Definition bucket_counts (distances : list float) : list (string * Z) :=
  groupBy_count (map distance_bucket distances).

(** [bucket_order = ["0-1", "2-4", "4-9", "10+"]] *)
Definition bucket_order : list string := ["0-1"; "2-4"; "4-9"; "10+"].

(** The code of a value in [pd.Categorical(values, categories=...)]:
    its position among the categories, [None] (NaN) outside of them. *)
Fixpoint category_code (categories : list string) (v : string)
  : option nat :=
  match categories with
  | [] => None
  | c :: rest =>
      if String.eqb v c then Some O
      else option_map S (category_code rest v)
  end.

(** Ascending order of codes, a missing code last. *)
Definition code_le (a b : option nat) : bool :=
  match a, b with
  | Some i, Some j => Nat.leb i j
  | Some _, None => true
  | None, Some _ => false
  | None, None => true
  end.

Fixpoint insert_row (categories : list string) (r : string * Z)
    (sorted : list (string * Z)) : list (string * Z) :=
  match sorted with
  | [] => [r]
  | r' :: rest =>
      if code_le (category_code categories (fst r))
                 (category_code categories (fst r'))
      then r :: r' :: rest
      else r' :: insert_row categories r rest
  end.

(** The order [sort_values] sorts by. *)
Definition row_le (categories : list string) (r r' : string * Z) : Prop :=
  code_le (category_code categories (fst r))
          (category_code categories (fst r')) = true.

(** [bucket_pd.sort_values("distance_bucket")] on the ordered categorical
    column.  The keys of a [groupBy] table are distinct, so the sorting
    algorithm pandas picks does not show. *)
Definition sort_values (categories : list string)
    (table : list (string * Z)) : list (string * Z) :=
  fold_right (insert_row categories) [] table.

(** The table the specification describes: the four labels in display
    order, each with its count, zero included. *)
Definition four_buckets (distances : list float) : list (string * Z) :=
  map (fun label => (label, occurrences label (map distance_bucket distances)))
      bucket_order.

(** The same without the rows whose count is zero. *)
Definition occupied_buckets (distances : list float) : list (string * Z) :=
  filter (fun r => 0 <? snd r) (four_buckets distances).

End TripAggregator.

(** ** The notebook, top to bottom *)

Module Notebook.
Import RecordLoader GeoMath TripAggregator.

(** What the run hands over: the printed numbers and the table behind
    the bar chart. *)
Record report := {
  rows_dropped : Z;
  long_trip_count : Z;
  revenue : float;
  bucket_pd : list (string * Z)
}.

(** What a caller can observe of a run.  [EmptyResult] is the explicit
    empty-result condition of the specification (section 7). *)
Inductive outcome :=
  | Completed (r : report)
  | EmptyResult.

Definition analyse (M : MathLib) (raw : list row) : report :=
  let df := na_drop raw in
  let n := num_trips df in
  {| rows_dropped := dropped raw;
     long_trip_count := n;
     revenue := expected_revenue n;
     bucket_pd := sort_values bucket_order
                    (bucket_counts (map (distance M) df)) |}.

(** No cell of the notebook tests for an empty table or raises on one:
    every run completes. *)
Definition run (M : MathLib) (raw : list row) : outcome :=
  Completed (analyse M raw).

(** A row whose [ended_at] is missing, at New York City Hall. *)
Definition unfinished_row : row :=
  {| started_at := Some 0%Z; ended_at := None;
     start_lat := Some 0x1.45b3d07c84b5ep+5%float;
     start_lng := Some (-0x1.280624dd2f1aap+6)%float;
     end_lat := Some 0x1.45b3d07c84b5ep+5%float;
     end_lng := Some (-0x1.280624dd2f1aap+6)%float |}.

End Notebook.

(** ** Readings of the tables *)

Module Views.
Import RecordLoader GeoMath Buckets TripAggregator.
Local Open Scope Z_scope.

(** The row of the cast table that a kept trip comes from. *)
Definition as_row (t : trip) : row :=
  {| started_at := Some (t_started_at t);
     ended_at := Some (t_ended_at t);
     start_lat := Some (t_start_lat t);
     start_lng := Some (t_start_lng t);
     end_lat := Some (t_end_lat t);
     end_lng := Some (t_end_lng t) |}.

(** The four coordinates of a trip are numbers. *)
Definition coordinates_are_numbers (t : trip) : bool :=
  negb (is_nan (t_start_lat t)) && negb (is_nan (t_start_lng t)) &&
  negb (is_nan (t_end_lat t)) && negb (is_nan (t_end_lng t)).

(** The sum of the [count] column: what the bars of the chart add up
    to. *)
Fixpoint total (table : list (string * Z)) : Z :=
  match table with
  | [] => 0
  | (_, n) :: rest => n + total rest
  end.

(** The same trip ridden the other way: start and end coordinates
    exchanged. *)
Definition reversed (t : trip) : trip :=
  {| t_started_at := t_started_at t;
     t_ended_at := t_ended_at t;
     t_start_lat := t_end_lat t;
     t_start_lng := t_end_lng t;
     t_end_lat := t_start_lat t;
     t_end_lng := t_start_lng t |}.

(** The place of a distance's bucket in the display order. *)
Definition bucket_rank (d : float) : option nat :=
  category_code bucket_order (distance_bucket d).

(** A function known on the non-negative numbers, continued as an odd
    function. *)
Definition odd_extension (f : float -> float) (x : float) : float :=
  if (x <? 0)%float then (- f (- x))%float else f x.

(** [sample_math] with its sine continued to negative arguments, as
    every [Math.sin] is odd. *)
Definition odd_sample_math : MathLib :=
  {| toRadians := toRadians sample_math;
     math_sin := odd_extension (math_sin sample_math);
     math_cos := math_cos sample_math;
     math_asin := math_asin sample_math;
     math_pow := math_pow sample_math |}.

End Views.

(** * Part II: facts *)

(** ** Doubles and their comparison *)

Module SparkDoubleFacts.
Import SparkDouble.

Lemma SFcompare_refl (s : spec_float) :
  s <> S754_nan -> SFcompare s s = Some Eq.
Proof.
  destruct s as [b | b | | b m e]; cbn [SFcompare]; intros H; try congruence.
  - destruct b; reflexivity.
  - rewrite Z.compare_refl, Pos.compare_cont_refl. destruct b; reflexivity.
Qed.

Lemma SFcompare_antisym (s t : spec_float) :
  SFcompare t s = option_map CompOpp (SFcompare s t).
Proof.
  destruct s as [b | b | | b m e], t as [c | c | | c n f];
    cbn [SFcompare option_map]; try reflexivity;
    try (destruct b; reflexivity); try (destruct c; reflexivity);
    try (destruct b, c; reflexivity).
  rewrite (Z.compare_antisym e f).
  destruct b, c; cbn [CompOpp]; try reflexivity;
    destruct (e ?= f)%Z; cbn [CompOpp]; try reflexivity;
    rewrite ?CompOpp_involutive;
    first [ rewrite (Pos.compare_cont_antisym m n Eq)
          | rewrite (Pos.compare_cont_antisym n m Eq) ]; reflexivity.
Qed.

Lemma is_nan_Prim2SF (x : float) :
  is_nan x = true <-> Prim2SF x = S754_nan.
Proof.
  unfold is_nan. rewrite eqb_spec. unfold SFeqb. split.
  - intros H. destruct (Prim2SF x) eqn:E; try reflexivity;
      rewrite SFcompare_refl in H by congruence; discriminate.
  - intros ->. reflexivity.
Qed.

Lemma not_nan_Prim2SF (x : float) :
  is_nan x = false <-> Prim2SF x <> S754_nan.
Proof.
  rewrite <- is_nan_Prim2SF. destruct (is_nan x); split; congruence.
Qed.

Lemma SFcompare_some (s t : spec_float) :
  s <> S754_nan -> t <> S754_nan -> exists c, SFcompare s t = Some c.
Proof.
  destruct s, t; cbn [SFcompare]; intros; try congruence; eauto.
Qed.

(** Against a number, Spark's comparison is the IEEE one with [NaN] on
    top. *)
Lemma nanSafeCompareDoubles_SF (x y : float) :
  is_nan y = false ->
  nanSafeCompareDoubles x y = SFnanSafeCompare (Prim2SF x) (Prim2SF y).
Proof.
  intros Hy. unfold nanSafeCompareDoubles, SFnanSafeCompare.
  rewrite Hy, andb_false_r, eqb_spec, ltb_spec. unfold SFeqb, SFltb.
  rewrite (SFcompare_antisym (Prim2SF x) (Prim2SF y)).
  apply not_nan_Prim2SF in Hy.
  destruct (is_nan x) eqn:Hx.
  - apply is_nan_Prim2SF in Hx. rewrite Hx.
    destruct (Prim2SF y); try congruence; reflexivity.
  - apply not_nan_Prim2SF in Hx.
    destruct (SFcompare_some _ _ Hx Hy) as [c ->]. destruct c; reflexivity.
Qed.

(** The finite doubles: zeros and numbers with a mantissa. *)
Lemma is_finite_Prim2SF (x : float) :
  is_finite x = true ->
  (exists s, Prim2SF x = S754_zero s) \/
  (exists s m e, Prim2SF x = S754_finite s m e).
Proof.
  unfold is_finite, is_infinity. intros H.
  apply negb_true_iff, orb_false_iff in H. destruct H as [Hn Hi].
  apply not_nan_Prim2SF in Hn.
  rewrite eqb_spec, abs_spec in Hi.
  destruct (Prim2SF x) as [s | s | | s m e]; eauto; try congruence.
  vm_compute in Hi. discriminate.
Qed.

End SparkDoubleFacts.

(** ** The bucket thresholds *)

Module BucketFacts.
Import SparkDouble SparkDoubleFacts Buckets.
Local Open Scope string_scope.

Lemma lit_1_SF : Prim2SF (lit 1) = S754_finite false 4503599627370496 (-52).
Proof. vm_compute. reflexivity. Qed.

Lemma lit_4_SF : Prim2SF (lit 4) = S754_finite false 4503599627370496 (-50).
Proof. vm_compute. reflexivity. Qed.

Lemma lit_9_SF : Prim2SF (lit 9) = S754_finite false 5066549580791808 (-49).
Proof. vm_compute. reflexivity. Qed.

Lemma SFcompare_thresholds (s : spec_float) :
  threshold_case (SFnanSafeCompare s (Prim2SF (lit 1)))
                 (SFnanSafeCompare s (Prim2SF (lit 4)))
                 (SFnanSafeCompare s (Prim2SF (lit 9))).
Proof.
  rewrite lit_1_SF, lit_4_SF, lit_9_SF. unfold SFnanSafeCompare.
  destruct s as [b | b | | b m e]; cbn [SFcompare]; try constructor.
  - destruct b; constructor.
  - destruct b; [constructor|].
    destruct (Z.compare_spec e (-52)), (Z.compare_spec e (-50)),
      (Z.compare_spec e (-49)); try lia; try constructor;
      match goal with
      | |- context [Pos.compare_cont Eq ?a ?b] =>
          destruct (Pos.compare_cont Eq a b); constructor
      end.
Qed.

Lemma threshold_cases (d : float) :
  threshold_case (nanSafeCompareDoubles d (lit 1))
                 (nanSafeCompareDoubles d (lit 4))
                 (nanSafeCompareDoubles d (lit 9)).
Proof.
  rewrite !nanSafeCompareDoubles_SF by (vm_compute; reflexivity).
  apply SFcompare_thresholds.
Qed.

(** A [NaN] is above the three thresholds. *)
Lemma nan_above_thresholds (d : float) (k : Z) :
  is_nan d = true -> is_nan (lit k) = false ->
  nanSafeCompareDoubles d (lit k) = Gt.
Proof.
  intros Hd Hk. rewrite nanSafeCompareDoubles_SF by assumption.
  apply is_nan_Prim2SF in Hd. apply not_nan_Prim2SF in Hk.
  rewrite Hd. unfold SFnanSafeCompare.
  destruct (Prim2SF (lit k)); try congruence; reflexivity.
Qed.

(** C3. The guards of the [when] chain and the fall-through are the four
    ranges (-inf,1], (1,4], (4,9] and (9,inf): a distance gets the label
    "0-1", "2-4", "4-9" or "10+" exactly when it lies in the range of
    that label, and for every distance (non-negative or not) exactly one
    of the four range tests is true. *)
Theorem bucket_ranges_partition (d : float) :
  (distance_bucket d = "0-1" <-> le d (lit 1) = true) /\
  (distance_bucket d = "2-4" <-> gt d (lit 1) = true /\ le d (lit 4) = true) /\
  (distance_bucket d = "4-9" <-> gt d (lit 4) = true /\ le d (lit 9) = true) /\
  (distance_bucket d = "10+" <-> gt d (lit 9) = true) /\
  how_many [guard_0_1 d; guard_2_4 d; guard_4_9 d; range_10_plus d] = 1.
Proof.
  unfold distance_bucket, guard_0_1, guard_2_4, guard_4_9, range_10_plus,
    le, gt.
  destruct (threshold_cases d); cbn;
    repeat split; intros; try discriminate; try reflexivity;
    try match goal with
        | H : _ /\ _ |- _ => destruct H; discriminate
        end.
Qed.

(** A [NaN] passes none of the three guards. *)
Lemma nan_fails_guards (d : float) :
  is_nan d = true ->
  guard_0_1 d = false /\ guard_2_4 d = false /\ guard_4_9 d = false /\
  distance_bucket d = "10+".
Proof.
  intros Hd.
  unfold distance_bucket, guard_0_1, guard_2_4, guard_4_9, le, gt.
  rewrite !(nan_above_thresholds d)
    by (assumption || (vm_compute; reflexivity)).
  repeat split.
Qed.

End BucketFacts.

(** ** RecordLoader *)

Module RecordLoaderFacts.
Import RecordLoader.
Local Open Scope Z_scope.

Lemma number_none (c : option float) : number c = None <-> na_double c = true.
Proof.
  destruct c as [x|]; cbn; [destruct (is_nan x)|]; split; congruence.
Qed.

(** [na.drop] removes a row exactly when one of its cells is missing. *)
Lemma keep_none (r : row) : keep r = None <-> has_na r = true.
Proof.
  unfold keep, has_na.
  rewrite !orb_true_iff, <- !number_none.
  destruct (started_at r), (ended_at r), (number (start_lat r)),
    (number (start_lng r)), (number (end_lat r)), (number (end_lng r));
    cbn; intuition congruence.
Qed.

Lemma count_cons {A : Type} (x : A) (l : list A) :
  count (x :: l) = count l + 1.
Proof. unfold count. cbn [List.length]. lia. Qed.

Lemma count_nonneg {A : Type} (l : list A) : 0 <= count l.
Proof. unfold count. lia. Qed.

Lemma count_app {A : Type} (l l' : list A) :
  count (l ++ l') = count l + count l'.
Proof. unfold count. rewrite length_app. lia. Qed.

(** C7. Of [N] rows, [K] of which have a missing cell (absent, not
    parsed, or NaN in a coordinate, which [na.drop] treats alike), the
    loader keeps exactly [N - K] and reports exactly [K] as dropped; it
    is a total function, no row stops it. *)
Theorem drop_accounting (df : list row) :
  let N := count df in
  let K := count (filter has_na df) in
  count (na_drop df) = N - K /\ dropped df = K.
Proof.
  cbv zeta. unfold dropped.
  enough (count (na_drop df) = count df - count (filter has_na df)) by lia.
  induction df as [|r df IH]; [reflexivity|].
  cbn [na_drop filter]. rewrite count_cons.
  destruct (keep r) as [t|] eqn:Hk.
  - destruct (has_na r) eqn:Hna.
    + apply keep_none in Hna. congruence.
    + rewrite count_cons. lia.
  - apply keep_none in Hk. rewrite Hk, count_cons. lia.
Qed.

End RecordLoaderFacts.

(** ** TripAggregator *)

Module TripAggregatorFacts.
Import SparkDouble RecordLoader RecordLoaderFacts GeoMath Buckets.
Import TripAggregator.
Local Open Scope Z_scope.

Lemma num_trips_app (df df' : list trip) :
  num_trips (df ++ df') = num_trips df + num_trips df'.
Proof. unfold num_trips, long_trips. rewrite filter_app. apply count_app. Qed.

Lemma num_trips_one (t : trip) :
  num_trips [t] = if tripduration t >? 1800 then 1 else 0.
Proof.
  unfold num_trips, long_trips. cbn [filter]. rewrite Z.gtb_ltb.
  destruct (1800 <? tripduration t); reflexivity.
Qed.

Lemma num_trips_spec (df : list trip) :
  num_trips df = count_longer_than 1800 (map tripduration df).
Proof.
  induction df as [|t df IH]; [reflexivity|].
  change (t :: df) with ([t] ++ df).
  rewrite num_trips_app, num_trips_one, IH. reflexivity.
Qed.

(** A trip that does not end after it starts has no positive duration. *)
Lemma tripduration_nonpositive (t : trip) :
  t_ended_at t <= t_started_at t -> tripduration t <= 0.
Proof.
  intros H. unfold tripduration.
  assert (H0 : 0 <= Z.quot (- (t_ended_at t - t_started_at t)) 1000000)
    by (apply Z.quot_pos; lia).
  rewrite Z.quot_opp_l in H0 by lia. lia.
Qed.

(** *** [groupBy(...).count()] *)

Lemma count_of_tally (k key : string) (groups : list (string * Z)) :
  count_of k (tally key groups) =
  count_of k groups + (if String.eqb k key then 1 else 0).
Proof.
  induction groups as [|[k' n] groups IH]; cbn [tally count_of].
  - destruct (String.eqb k key); reflexivity.
  - destruct (String.eqb_spec key k') as [->|Hne]; cbn [count_of].
    + destruct (String.eqb k k'); lia.
    + destruct (String.eqb_spec k k') as [->|Hne'].
      * destruct (String.eqb_spec k' key); [congruence | lia].
      * exact IH.
Qed.

Lemma count_of_fold (k : string) (keys : list string)
    (groups : list (string * Z)) :
  count_of k (fold_left (fun g key => tally key g) keys groups) =
  count_of k groups + occurrences k keys.
Proof.
  revert groups. induction keys as [|key keys IH]; intros groups;
    cbn [fold_left occurrences]; [lia|].
  rewrite IH, count_of_tally. lia.
Qed.

(** The count of a group is the number of rows with its key. *)
Lemma count_of_groupBy_count (k : string) (keys : list string) :
  count_of k (groupBy_count keys) = occurrences k keys.
Proof. unfold groupBy_count. rewrite count_of_fold. reflexivity. Qed.

Lemma occurrences_app (k : string) (keys keys' : list string) :
  occurrences k (keys ++ keys') = occurrences k keys + occurrences k keys'.
Proof.
  induction keys as [|k' keys IH]; cbn [app occurrences]; lia.
Qed.

Lemma occurrences_nonneg (k : string) (keys : list string) :
  0 <= occurrences k keys.
Proof.
  induction keys as [|k' keys IH]; cbn [occurrences]; [lia|].
  destruct (String.eqb k k'); lia.
Qed.

(** Every row is counted in the group of its own bucket. *)
Lemma bucket_counts_insert (pre post : list float) (d : float) :
  count_of (distance_bucket d) (bucket_counts (pre ++ d :: post)) =
  count_of (distance_bucket d) (bucket_counts (pre ++ post)) + 1.
Proof.
  unfold bucket_counts. rewrite !count_of_groupBy_count, !map_app.
  cbn [map]. rewrite !occurrences_app. cbn [occurrences].
  rewrite String.eqb_refl. lia.
Qed.

(** C5. The long-trip count is the number of records whose duration is
    strictly greater than 1800 seconds.  A record that does not end after
    it starts (duration at most 0) adds nothing to that count, wherever
    it stands in the table, and is still counted in its distance
    bucket. *)
Theorem long_trip_count_strict
    (M : MathLib) (pre post : list trip) (t : trip) :
  num_trips (pre ++ t :: post) =
    count_longer_than 1800 (map tripduration (pre ++ t :: post)) /\
  (t_ended_at t <= t_started_at t ->
     tripduration t <= 0 /\
     num_trips (pre ++ t :: post) = num_trips (pre ++ post) /\
     let bucket := distance_bucket (distance M t) in
     count_of bucket (bucket_counts (map (distance M) (pre ++ t :: post))) =
     count_of bucket (bucket_counts (map (distance M) (pre ++ post))) + 1).
Proof.
  split; [apply num_trips_spec|].
  intros Hend. pose proof (tripduration_nonpositive t Hend) as Hd.
  split; [exact Hd|]. split.
  - change (t :: post) with ([t] ++ post).
    rewrite !num_trips_app, num_trips_one.
    destruct (Z.gtb_spec (tripduration t) 1800); lia.
  - cbv zeta. rewrite !map_app. cbn [map]. apply bucket_counts_insert.
Qed.

End TripAggregatorFacts.

(** ** Sorting the bucket table *)

Module SortFacts.
Import SparkDouble RecordLoader GeoMath Buckets.
Import TripAggregator TripAggregatorFacts.
Local Open Scope Z_scope.

Section Categories.
Variable categories : list string.

Lemma code_le_total (a b : option nat) :
  code_le a b = true \/ code_le b a = true.
Proof.
  destruct a as [i|], b as [j|]; cbn; auto.
  destruct (Nat.leb_spec i j); [auto|].
  right. apply Nat.leb_le. lia.
Qed.

Lemma code_le_trans (a b c : option nat) :
  code_le a b = true -> code_le b c = true -> code_le a c = true.
Proof.
  destruct a as [i|], b as [j|], c as [k|]; cbn; try congruence.
  rewrite !Nat.leb_le. lia.
Qed.

Lemma code_le_antisym (a b : option nat) :
  code_le a b = true -> code_le b a = true -> a = b.
Proof.
  destruct a as [i|], b as [j|]; cbn; try congruence.
  rewrite !Nat.leb_le. intros. f_equal. lia.
Qed.

Lemma row_le_trans : Relations_1.Transitive (row_le categories).
Proof. intros x y z. apply code_le_trans. Qed.

Lemma insert_row_perm (r : string * Z) (l : list (string * Z)) :
  Permutation (insert_row categories r l) (r :: l).
Proof.
  induction l as [|r' l IH]; cbn [insert_row]; [reflexivity|].
  destruct (code_le _ _); [reflexivity|].
  rewrite IH. apply perm_swap.
Qed.

Lemma sort_values_perm (l : list (string * Z)) :
  Permutation (sort_values categories l) l.
Proof.
  induction l as [|r l IH]; cbn [sort_values fold_right]; [reflexivity|].
  fold (sort_values categories l). rewrite insert_row_perm.
  now apply perm_skip.
Qed.

Lemma insert_row_sorted (r : string * Z) (l : list (string * Z)) :
  Sorted (row_le categories) l ->
  Sorted (row_le categories) (insert_row categories r l).
Proof.
  induction l as [|r' l IH]; cbn [insert_row]; intros Hs.
  - repeat constructor.
  - destruct (code_le (category_code categories (fst r))
                      (category_code categories (fst r'))) eqn:Hle.
    + constructor; [assumption|]. constructor. exact Hle.
    + apply Sorted_inv in Hs. destruct Hs as [Hs Hhd].
      constructor; [apply IH; assumption|].
      assert (Hr : row_le categories r' r).
      { destruct (code_le_total (category_code categories (fst r))
                                (category_code categories (fst r')));
          [congruence | assumption]. }
      destruct l as [|r'' l]; cbn [insert_row].
      * constructor. exact Hr.
      * destruct (code_le (category_code categories (fst r))
                          (category_code categories (fst r'')));
          constructor; [exact Hr | now apply HdRel_inv in Hhd].
  Qed.

Lemma sort_values_sorted (l : list (string * Z)) :
  StronglySorted (row_le categories) (sort_values categories l).
Proof.
  apply Sorted_StronglySorted; [exact row_le_trans|].
  induction l as [|r l IH]; cbn [sort_values fold_right]; [constructor|].
  apply insert_row_sorted. exact IH.
Qed.

Lemma StronglySorted_filter
    (f : string * Z -> bool) (l : list (string * Z)) :
  StronglySorted (row_le categories) l ->
  StronglySorted (row_le categories) (filter f l).
Proof.
  induction 1 as [|r l Hs IH Hall]; cbn [filter]; [constructor|].
  destruct (f r); [|exact IH].
  constructor; [exact IH|].
  rewrite Forall_forall in *. intros x Hx.
  apply filter_In in Hx. now apply Hall.
Qed.

(** Two sorted tables with the same rows are the same table, when no
    two rows tie. *)
Lemma sorted_unique (l1 l2 : list (string * Z)) :
  (forall a b, In a l1 -> In b l1 ->
               row_le categories a b -> row_le categories b a -> a = b) ->
  StronglySorted (row_le categories) l1 ->
  StronglySorted (row_le categories) l2 ->
  Permutation l1 l2 -> l1 = l2.
Proof.
  revert l2. induction l1 as [|a l1 IH]; intros l2 Hanti H1 H2 Hp.
  - apply Permutation_nil in Hp. now subst.
  - destruct l2 as [|b l2];
      [apply Permutation_sym, Permutation_nil in Hp; discriminate|].
    apply StronglySorted_inv in H1, H2.
    destruct H1 as [H1 Ha], H2 as [H2 Hb].
    rewrite Forall_forall in Ha, Hb.
    assert (Hab : a = b).
    { assert (Hina : In a (b :: l2))
        by (apply (Permutation_in a Hp); now left).
      assert (Hinb : In b (a :: l1))
        by (apply (Permutation_in b (Permutation_sym Hp)); now left).
      destruct Hina as [->|Hina]; [reflexivity|].
      destruct Hinb as [->|Hinb]; [reflexivity|].
      apply Hanti; [now left | now right | now apply Ha | now apply Hb]. }
    subst b. f_equal.
    apply IH; try assumption.
    + intros x y Hx Hy. apply Hanti; now right.
    + now apply Permutation_cons_inv in Hp.
Qed.

Lemma category_code_inj (u v : string) (i : nat) :
  category_code categories u = Some i ->
  category_code categories v = Some i -> u = v.
Proof.
  revert i. induction categories as [|c cats IH]; intros i; cbn;
    [discriminate|].
  destruct (String.eqb_spec u c) as [->|Hu], (String.eqb_spec v c) as [->|Hv];
    try congruence.
  - destruct (category_code cats v); cbn; congruence.
  - destruct (category_code cats u); cbn; congruence.
  - destruct (category_code cats u) as [j|] eqn:Eu,
      (category_code cats v) as [k|] eqn:Ev; cbn; try congruence.
    intros [= <-] [= Hk]. apply (IH j); congruence.
Qed.

Lemma category_code_in (v : string) :
  In v categories -> exists i, category_code categories v = Some i.
Proof.
  induction categories as [|c cats IH]; cbn; [tauto|].
  intros Hin. destruct (String.eqb_spec v c) as [->|Hv]; [eauto|].
  destruct Hin as [->|Hin]; [congruence|].
  destruct (IH Hin) as [i ->]. cbn. eauto.
Qed.
End Categories.

(** *** The rows of a [groupBy] table *)

Lemma in_keys_tally (k key : string) (groups : list (string * Z)) :
  In k (map fst (tally key groups)) <-> k = key \/ In k (map fst groups).
Proof.
  induction groups as [|[k' n] groups IH]; cbn [tally map fst In].
  - intuition.
  - destruct (String.eqb_spec key k') as [->|Hne]; cbn [map fst In].
    + intuition.
    + rewrite IH. intuition.
Qed.

Lemma NoDup_tally (key : string) (groups : list (string * Z)) :
  NoDup (map fst groups) -> NoDup (map fst (tally key groups)).
Proof.
  induction groups as [|[k' n] groups IH]; cbn [tally map fst]; intros Hnd.
  - repeat constructor. intros [].
  - apply NoDup_cons_iff in Hnd. destruct Hnd as [Hnotin Hnd].
    destruct (String.eqb_spec key k') as [->|Hne]; cbn [map fst].
    + now constructor.
    + constructor; [|now apply IH].
      rewrite in_keys_tally. intros [->|Hin]; congruence || tauto.
Qed.

Lemma NoDup_groupBy_count (keys : list string) :
  NoDup (map fst (groupBy_count keys)).
Proof.
  unfold groupBy_count.
  assert (H : NoDup (map fst (@nil (string * Z)))) by constructor.
  revert H. generalize (@nil (string * Z)) as groups.
  induction keys as [|key keys IH]; intros groups H; cbn [fold_left];
    [exact H|].
  apply IH, NoDup_tally, H.
Qed.

Lemma count_of_unique (k : string) (n : Z) (groups : list (string * Z)) :
  NoDup (map fst groups) -> In (k, n) groups -> count_of k groups = n.
Proof.
  induction groups as [|[k' n'] groups IH]; cbn [map fst In count_of];
    [tauto|].
  intros Hnd Hin. apply NoDup_cons_iff in Hnd. destruct Hnd as [Hnotin Hnd].
  destruct Hin as [[= -> ->]|Hin].
  - now rewrite String.eqb_refl.
  - destruct (String.eqb_spec k k') as [->|Hne]; [|now apply IH].
    exfalso. apply Hnotin. apply (in_map fst) in Hin. exact Hin.
Qed.

Lemma count_of_present (k : string) (groups : list (string * Z)) :
  count_of k groups <> 0 -> In (k, count_of k groups) groups.
Proof.
  induction groups as [|[k' n'] groups IH]; cbn [count_of In]; [congruence|].
  destruct (String.eqb_spec k k') as [->|Hne]; [now left|].
  intros H. right. now apply IH.
Qed.

Lemma tally_positive (key : string) (groups : list (string * Z)) :
  Forall (fun r => 0 < snd r) groups ->
  Forall (fun r => 0 < snd r) (tally key groups).
Proof.
  induction 1 as [|[k n] groups Hn Hall IH]; cbn [tally].
  - repeat constructor.
  - cbn [snd] in Hn. destruct (String.eqb key k); constructor;
      cbn [snd]; trivial; lia.
Qed.

Lemma groupBy_count_positive (keys : list string) :
  Forall (fun r => 0 < snd r) (groupBy_count keys).
Proof.
  unfold groupBy_count.
  assert (H : Forall (fun r : string * Z => 0 < snd r) []) by constructor.
  revert H. generalize (@nil (string * Z)) as groups.
  induction keys as [|key keys IH]; intros groups H; cbn [fold_left];
    [exact H|].
  apply IH, tally_positive, H.
Qed.

Lemma occurrences_positive_in (k : string) (keys : list string) :
  0 < occurrences k keys -> In k keys.
Proof.
  induction keys as [|k' keys IH]; cbn [occurrences In]; [lia|].
  destruct (String.eqb_spec k k') as [->|Hne]; [now left|].
  intros H. right. apply IH. lia.
Qed.

(** Every label the [when] chain gives is one of [bucket_order]. *)
Lemma distance_bucket_in_order (d : float) :
  In (distance_bucket d) bucket_order.
Proof.
  unfold distance_bucket, bucket_order.
  destruct (guard_0_1 d), (guard_2_4 d), (guard_4_9 d); cbn; tauto.
Qed.

Lemma four_buckets_sorted (distances : list float) :
  StronglySorted (row_le bucket_order) (four_buckets distances).
Proof.
  unfold four_buckets, bucket_order. cbn [map].
  repeat constructor.
Qed.

Lemma in_four_buckets (r : string * Z) (distances : list float) :
  In r (four_buckets distances) <->
  In (fst r) bucket_order /\
  snd r = occurrences (fst r) (map distance_bucket distances).
Proof.
  unfold four_buckets. rewrite in_map_iff. destruct r as [k n]. cbn [fst snd].
  split.
  - intros [l [[= <- <-] Hin]]. auto.
  - intros [Hin ->]. eauto.
Qed.

(** The rows of the [groupBy] table are the occupied buckets. *)
Lemma bucket_counts_rows (r : string * Z) (distances : list float) :
  In r (bucket_counts distances) <-> In r (occupied_buckets distances).
Proof.
  unfold occupied_buckets, bucket_counts.
  rewrite filter_In, in_four_buckets, Z.ltb_lt.
  destruct r as [k n]. cbn [fst snd]. split.
  - intros Hin.
    pose proof (count_of_unique k n _ (NoDup_groupBy_count _) Hin) as Hc.
    rewrite count_of_groupBy_count in Hc.
    pose proof (groupBy_count_positive (map distance_bucket distances)) as Hp.
    rewrite Forall_forall in Hp. specialize (Hp _ Hin). cbn [snd] in Hp.
    repeat split; [|congruence|exact Hp].
    assert (Hk : In k (map distance_bucket distances))
      by (apply occurrences_positive_in; lia).
    apply in_map_iff in Hk. destruct Hk as [d [<- _]].
    apply distance_bucket_in_order.
  - intros [[_ ->] Hpos].
    rewrite <- count_of_groupBy_count in *.
    apply count_of_present. lia.
Qed.

Lemma NoDup_occupied_buckets (distances : list float) :
  NoDup (occupied_buckets distances).
Proof.
  unfold occupied_buckets. apply NoDup_filter.
  apply (NoDup_map_inv fst). unfold four_buckets.
  rewrite map_map. cbn [fst]. rewrite map_id.
  unfold bucket_order. repeat constructor; cbn [In]; intuition discriminate.
Qed.

Lemma occurrences_perm (k : string) (keys keys' : list string) :
  Permutation keys keys' -> occurrences k keys = occurrences k keys'.
Proof.
  induction 1; cbn [occurrences]; lia.
Qed.

(** C4, as the notebook has it.  Whatever the order of the records and
    whatever the order in which [groupBy] returns its groups, the sorted
    table is the list of the occupied buckets in the display order
    "0-1", "2-4", "4-9", "10+", each with its count; a bucket that no
    trip falls into has no row. *)
Theorem sorted_table_is_occupied_buckets
    (distances shuffled : list float) (groups : list (string * Z)) :
  Permutation shuffled distances ->
  Permutation groups (bucket_counts shuffled) ->
  sort_values bucket_order groups = occupied_buckets distances.
Proof.
  intros Hrec Hgrp. symmetry.
  apply (sorted_unique bucket_order).
  - intros [ka na] [kb nb] Ha Hb Hab Hba.
    unfold occupied_buckets in Ha, Hb.
    apply filter_In in Ha, Hb. destruct Ha as [Ha _], Hb as [Hb _].
    apply in_four_buckets in Ha, Hb. cbn [fst snd] in Ha, Hb.
    destruct Ha as [Hina ->], Hb as [Hinb ->].
    pose proof (code_le_antisym _ _ Hab Hba) as Hcode. cbn [fst] in Hcode.
    destruct (category_code_in bucket_order ka Hina) as [i Hi].
    rewrite Hi in Hcode. symmetry in Hcode.
    now rewrite (category_code_inj bucket_order ka kb i Hi Hcode).
  - apply StronglySorted_filter, four_buckets_sorted.
  - apply sort_values_sorted.
  - rewrite sort_values_perm, Hgrp.
    apply NoDup_Permutation.
    + apply NoDup_occupied_buckets.
    + apply (NoDup_map_inv fst), NoDup_groupBy_count.
    + intros r. rewrite bucket_counts_rows.
      unfold occupied_buckets, four_buckets.
      assert (Hocc : forall k, occurrences k (map distance_bucket shuffled) =
                               occurrences k (map distance_bucket distances))
        by (intros k; apply occurrences_perm, Permutation_map, Hrec).
      rewrite (map_ext _ _ (fun l => f_equal (pair l) (Hocc l))).
      reflexivity.
Qed.

End SortFacts.

(** ** IEEE arithmetic at the values the distance visits *)

Module FloatFacts.
Import SparkDouble SparkDoubleFacts.
Local Open Scope Z_scope.

Lemma finite_Prim2SF_is_finite (x : float) :
  (exists s, Prim2SF x = S754_zero s) \/
  (exists s m e, Prim2SF x = S754_finite s m e) ->
  is_finite x = true.
Proof.
  intros H. unfold is_finite, is_infinity, is_nan.
  rewrite !eqb_spec, abs_spec.
  replace (Prim2SF infinity) with (S754_infinity false)
    by (vm_compute; reflexivity).
  destruct H as [[s ->]|[s [m [e ->]]]]; unfold SFeqb; cbn [SFabs SFcompare].
  - reflexivity.
  - rewrite Z.compare_refl, Pos.compare_cont_refl. destruct s; reflexivity.
Qed.

(** [x - x] is [+0] for every finite [x]. *)
Lemma sub_diag_finite (x : float) :
  is_finite x = true -> (x - x)%float = 0%float.
Proof.
  intros H. apply Prim2SF_inj. rewrite sub_spec.
  replace (Prim2SF 0) with (S754_zero false) by (vm_compute; reflexivity).
  destruct (is_finite_Prim2SF x H) as [[s ->]|[s [m [e ->]]]];
    unfold SF64sub, SFsub.
  - destruct s; reflexivity.
  - rewrite Z.sub_diag. reflexivity.
Qed.

(** *** Rounding does not overflow on a product of two numbers in [-1, 1] *)

Lemma shr_1_bounds (mrs : shr_record) :
  0 <= shr_m mrs -> 0 <= shr_m (shr_1 mrs) <= shr_m mrs.
Proof.
  destruct mrs as [m r s]. cbn [shr_m]. intros Hm.
  destruct m as [|p|p]; [cbn; lia| |lia].
  destruct p; cbn [shr_1 shr_m]; lia.
Qed.

Lemma iter_shr_1_bounds (p : positive) (mrs : shr_record) :
  0 <= shr_m mrs -> 0 <= shr_m (SpecFloat.iter_pos shr_1 p mrs) <= shr_m mrs.
Proof.
  revert mrs. induction p as [p IH|p IH|]; intros mrs Hm;
    cbn [SpecFloat.iter_pos].
  - pose proof (shr_1_bounds mrs Hm) as H1.
    pose proof (IH (shr_1 mrs) (proj1 H1)) as H2.
    pose proof (IH _ (proj1 H2)) as H3. lia.
  - pose proof (IH mrs Hm) as H2.
    pose proof (IH _ (proj1 H2)) as H3. lia.
  - apply shr_1_bounds, Hm.
Qed.

Lemma shr_record_of_loc_m (m : Z) (l : location) :
  shr_m (shr_record_of_loc m l) = m.
Proof. destruct l as [|[]]; reflexivity. Qed.

Lemma shr_fexp_bounds (m e : Z) (l : location) :
  0 <= m ->
  let '(mrs, e') := shr_fexp prec emax m e l in
  0 <= shr_m mrs <= m /\
  e' = Z.max e (fexp prec emax (Zdigits2 m + e)).
Proof.
  intros Hm. unfold shr_fexp, shr.
  destruct (fexp prec emax (Zdigits2 m + e) - e) as [|p|p] eqn:Hn.
  - rewrite shr_record_of_loc_m. lia.
  - pose proof (iter_shr_1_bounds p (shr_record_of_loc m l)) as Hb.
    rewrite shr_record_of_loc_m in Hb. specialize (Hb Hm). lia.
  - rewrite shr_record_of_loc_m. lia.
Qed.

Lemma round_nearest_even_bounds (m : Z) (l : location) :
  m <= round_nearest_even m l <= m + 1.
Proof.
  destruct l as [|[]]; cbn [round_nearest_even]; try lia.
  destruct (Z.even m); lia.
Qed.

Lemma digits2_pos_size (p : positive) : digits2_pos p = Pos.size p.
Proof. induction p; cbn; congruence. Qed.

Lemma digits2_pos_upper (p : positive) : Zpos p < 2 ^ Zpos (digits2_pos p).
Proof.
  rewrite digits2_pos_size. pose proof (Pos.size_gt p) as H.
  apply Pos2Z.pos_lt_pos in H. now rewrite Pos2Z.inj_pow in H.
Qed.

Lemma Zdigits2_le (m k : Z) : 0 <= m < 2 ^ k -> 0 <= k -> Zdigits2 m <= k.
Proof.
  intros [Hm Hlt] Hk. destruct m as [|p|p]; cbn [Zdigits2]; [lia| |lia].
  rewrite digits2_pos_size.
  pose proof (Pos.size_le p) as H.
  apply Pos2Z.pos_le_pos in H. rewrite Pos2Z.inj_pow in H.
  change (Zpos p~0) with (2 * Zpos p) in H.
  destruct (Z_lt_le_dec k (Zpos (Pos.size p))) as [Hgt|]; [|lia].
  exfalso.
  assert (H0 : 2 ^ Z.succ k <= 2 ^ Zpos (Pos.size p))
    by (apply Z.pow_le_mono_r; lia).
  rewrite Z.pow_succ_r in H0 by lia. lia.
Qed.

Lemma Zdigits2_nonneg (m : Z) : 0 <= Zdigits2 m.
Proof. destruct m; cbn; lia. Qed.

(** The rounded product of two mantissas of at most 53 bits whose
    exponents are at most [-52] is a zero or a finite number. *)
Lemma binary_round_aux_small (s : bool) (m : positive) (e : Z) :
  Zpos m < 2 ^ 106 -> e <= -104 ->
  (exists s',
     binary_round_aux prec emax s (Zpos m) e loc_Exact = S754_zero s') \/
  (exists s' m' e',
     binary_round_aux prec emax s (Zpos m) e loc_Exact =
     S754_finite s' m' e').
Proof.
  intros Hm He. unfold binary_round_aux.
  pose proof (shr_fexp_bounds (Zpos m) e loc_Exact ltac:(lia)) as H1.
  destruct (shr_fexp prec emax (Zpos m) e loc_Exact) as [mrs' e'].
  destruct H1 as [Hm1 He1].
  pose proof (round_nearest_even_bounds
                (shr_m mrs') (loc_of_shr_record mrs')) as Hr.
  set (m1 := round_nearest_even (shr_m mrs') (loc_of_shr_record mrs')) in *.
  pose proof (shr_fexp_bounds m1 e' loc_Exact ltac:(lia)) as H2.
  destruct (shr_fexp prec emax m1 e' loc_Exact) as [mrs'' e''].
  destruct H2 as [Hm2 He2].
  assert (Hd : Zdigits2 (Zpos m) <= 106) by (apply Zdigits2_le; lia).
  assert (Hd1 : Zdigits2 m1 <= 107).
  { apply Zdigits2_le; [|lia]. split; [lia|].
    change (2 ^ 107) with (2 * 2 ^ 106). lia. }
  pose proof (Zdigits2_nonneg (Zpos m)). pose proof (Zdigits2_nonneg m1).
  unfold fexp, SpecFloat.emin in He1, He2.
  change prec with 53 in *. change emax with 1024 in *.
  destruct (shr_m mrs'') as [|p|p]; [eauto| |lia].
  destruct (Z.leb_spec e'' (1024 - 53)); [eauto 6|lia].
Qed.

Lemma abs_le_1_Prim2SF (x : float) :
  (abs x <=? 1)%float = true ->
  (exists s, Prim2SF x = S754_zero s) \/
  (exists s m e, Prim2SF x = S754_finite s m e /\
                 Zpos m < 2 ^ 53 /\ e <= -52).
Proof.
  rewrite leb_spec, abs_spec.
  replace (Prim2SF 1) with (S754_finite false 4503599627370496 (-52))
    by (vm_compute; reflexivity).
  pose proof (Prim2SF_valid x) as Hv.
  destruct (Prim2SF x) as [s|s| |s m e]; unfold SFleb; cbn [SFabs SFcompare];
    try discriminate; [eauto|].
  intros Hle. right. exists s, m, e. split; [reflexivity|].
  cbn [valid_binary] in Hv. unfold bounded, canonical_mantissa in Hv.
  apply andb_true_iff in Hv. destruct Hv as [Hc _].
  apply Z.eqb_eq in Hc. unfold fexp, SpecFloat.emin in Hc.
  change prec with 53 in Hc. change emax with 1024 in Hc.
  pose proof (digits2_pos_upper m) as Hu.
  split.
  - apply Z.lt_le_trans with (1 := Hu). apply Z.pow_le_mono_r; lia.
  - revert Hle. destruct (Z.compare_spec e (-52)); lia || discriminate.
Qed.

Lemma mul_bounded_finite (x y : float) :
  (abs x <=? 1)%float = true -> (abs y <=? 1)%float = true ->
  is_finite (x * y) = true.
Proof.
  intros Hx Hy. apply finite_Prim2SF_is_finite. rewrite mul_spec.
  destruct (abs_le_1_Prim2SF x Hx) as [[sx ->]|[sx [mx [ex [-> [Hmx Hex]]]]]],
    (abs_le_1_Prim2SF y Hy) as [[sy ->]|[sy [my [ey [-> [Hmy Hey]]]]]];
    unfold SF64mul, SFmul; eauto.
  apply binary_round_aux_small; [|lia].
  rewrite Pos2Z.inj_mul. change (2 ^ 106) with (2 ^ 53 * 2 ^ 53).
  apply Z.mul_lt_mono_nonneg; lia.
Qed.

(** Adding a finite number times zero to [+0] leaves [+0]. *)
Lemma add_zero_mul_zero (c : float) :
  is_finite c = true -> (0 + c * 0)%float = 0%float.
Proof.
  intros H. apply Prim2SF_inj. rewrite add_spec, mul_spec.
  replace (Prim2SF 0) with (S754_zero false) by (vm_compute; reflexivity).
  destruct (is_finite_Prim2SF c H) as [[s ->]|[s [m [e ->]]]];
    unfold SF64add, SF64mul, SFmul, SFadd; destruct s; reflexivity.
Qed.

End FloatFacts.

(** ** GeoMath *)

Module GeoMathFacts.
Import SparkDouble SparkDoubleFacts FloatFacts RecordLoader GeoMath.

(** C2. The [distance] column is the specification's Haversine formula
    at the radius 3959, the one value [R] of the notebook: in binary64
    for every math library, and in exact arithmetic. *)
Theorem distance_is_haversine (M : MathLib) (t : trip)
    (lat1 lng1 lat2 lng2 : Rdefinitions.R) :
  distance M t =
    @haversine_distance float (binary64 M)
      (t_start_lat t) (t_start_lng t) (t_end_lat t) (t_end_lng t) 3959 /\
  @distance_expr _ exact lat1 lng1 lat2 lng2 =
    @haversine_distance _ exact lat1 lng1 lat2 lng2 3959.
Proof.
  split.
  - unfold distance, distance_expr, haversine_distance, haversine_a.
    cbv zeta. cbn [mul literal binary64].
    replace (lit (R * 2)) with (lit 2 * lit 3959)%float
      by (vm_compute; reflexivity).
    reflexivity.
  - unfold distance_expr, haversine_distance, haversine_a.
    cbv zeta. cbn [mul literal exact].
    replace (IZR (R * 2)) with (IZR 2 * IZR 3959)%R
      by (rewrite <- mult_IZR; reflexivity).
    reflexivity.
Qed.

(** C9. From a point to itself the distance is exactly [0], for every
    finite point: this needs of the math library only what
    [java.lang.Math] documents (sin 0 = 0, asin 0 = 0, 0 squared is 0,
    a cosine lies in [-1, 1], the radians of a finite angle are
    finite). *)
Theorem identity_distance_is_zero (M : MathLib) (lat lng : float) :
  is_finite (toRadians M lat) = true ->
  is_finite (toRadians M lng) = true ->
  math_sin M 0 = 0%float ->
  math_pow M 0 2 = 0%float ->
  math_asin M 0 = 0%float ->
  (abs (math_cos M (toRadians M lat)) <=? 1)%float = true ->
  distance M (trip_between lat lng lat lng) = 0%float.
Proof.
  intros Hlat Hlng Hsin Hpow Hasin Hcos.
  unfold distance, distance_expr, haversine_a, trip_between.
  cbn [t_start_lat t_start_lng t_end_lat t_end_lng
       mul add sub div pow radians sin cos asin sqrt literal binary64].
  rewrite !sub_diag_finite by assumption.
  replace (lit 2) with 2%float by (vm_compute; reflexivity).
  replace (0 / 2)%float with 0%float by (vm_compute; reflexivity).
  rewrite Hsin, Hpow.
  rewrite add_zero_mul_zero by (apply mul_bounded_finite; assumption).
  replace (PrimFloat.sqrt 0) with 0%float by (vm_compute; reflexivity).
  rewrite Hasin. vm_compute. reflexivity.
Qed.

(** New York City Hall, 40.7128 N 74.0060 W. *)
Lemma identity_distance_is_zero_witness :
  distance sample_math
    (trip_between 0x1.45b3d07c84b5ep+5 (-0x1.280624dd2f1aap+6)
                  0x1.45b3d07c84b5ep+5 (-0x1.280624dd2f1aap+6)) = 0%float.
Proof.
  apply (identity_distance_is_zero sample_math); vm_compute; reflexivity.
Defined.

Lemma powerRZ_2 (x : Rdefinitions.R) : powerRZ x 2 = (x * x)%R.
Proof. unfold powerRZ. simpl. ring. Qed.

(** The same in exact arithmetic. *)
Lemma identity_distance_exact (lat lng : Rdefinitions.R) :
  @distance_expr _ exact lat lng lat lng = 0%R.
Proof.
  unfold distance_expr, haversine_a.
  cbn [mul add sub div pow radians sin cos asin sqrt literal exact].
  unfold Rminus. rewrite !Rplus_opp_r.
  unfold Rdiv. rewrite Rmult_0_l, sin_0.
  rewrite powerRZ_2, Rmult_0_l.
  rewrite Rmult_0_r, Rplus_0_r, sqrt_0, asin_0. ring.
Qed.

(** *** The argument of the square root *)

Lemma sin_sqr_bounds (x : Rdefinitions.R) :
  (0 <= Rtrigo_def.sin x * Rtrigo_def.sin x <= 1)%R.
Proof.
  pose proof (sin2_cos2 x) as H. unfold Rsqr in H.
  pose proof (Rle_0_sqr (Rtrigo_def.sin x)) as Hs.
  pose proof (Rle_0_sqr (Rtrigo_def.cos x)) as Hc.
  unfold Rsqr in Hs, Hc. lra.
Qed.

Lemma cos_sqr_bounds (x : Rdefinitions.R) :
  (0 <= Rtrigo_def.cos x * Rtrigo_def.cos x <= 1)%R.
Proof.
  pose proof (sin2_cos2 x) as H. unfold Rsqr in H.
  pose proof (Rle_0_sqr (Rtrigo_def.sin x)) as Hs.
  pose proof (Rle_0_sqr (Rtrigo_def.cos x)) as Hc.
  unfold Rsqr in Hs, Hc. lra.
Qed.

(** cos(p - u) cos(p + u) = cos(p)^2 - sin(u)^2 *)
Lemma cos_product (p u : Rdefinitions.R) :
  (Rtrigo_def.cos (p - u) * Rtrigo_def.cos (p + u) =
   Rtrigo_def.cos p * Rtrigo_def.cos p -
   Rtrigo_def.sin u * Rtrigo_def.sin u)%R.
Proof.
  rewrite cos_minus, cos_plus.
  pose proof (sin2_cos2 p) as Hp. pose proof (sin2_cos2 u) as Hu.
  unfold Rsqr in Hp, Hu.
  set (sp := Rtrigo_def.sin p) in *. set (cp := Rtrigo_def.cos p) in *.
  set (su := Rtrigo_def.sin u) in *. set (cu := Rtrigo_def.cos u) in *.
  replace ((cp * cu + sp * su) * (cp * cu - sp * su))%R
    with (cp * cp * (cu * cu) - sp * sp * (su * su))%R by ring.
  replace (cu * cu)%R with (1 - su * su)%R by lra.
  replace (sp * sp)%R with (1 - cp * cp)%R by lra.
  ring.
Qed.

Lemma haversine_a_exact_range (lat1 lng1 lat2 lng2 : Rdefinitions.R) :
  (0 <= @haversine_a _ exact lat1 lng1 lat2 lng2 <= 1)%R.
Proof.
  unfold haversine_a.
  cbn [mul add sub div pow radians sin cos asin sqrt literal exact].
  set (r1 := (lat1 * PI / 180)%R). set (r2 := (lat2 * PI / 180)%R).
  set (v := ((lng2 * PI / 180 - lng1 * PI / 180) / 2)%R).
  set (u := ((r2 - r1) / 2)%R). set (p := ((r1 + r2) / 2)%R).
  assert (Hprod : (Rtrigo_def.cos r1 * Rtrigo_def.cos r2 =
                   Rtrigo_def.cos p * Rtrigo_def.cos p -
                   Rtrigo_def.sin u * Rtrigo_def.sin u)%R).
  { replace r1 with (p - u)%R by (unfold p, u; lra).
    replace r2 with (p + u)%R by (unfold p, u; lra).
    apply cos_product. }
  rewrite Hprod, !powerRZ_2.
  pose proof (sin_sqr_bounds u) as Hu. pose proof (sin_sqr_bounds v) as Hv.
  pose proof (cos_sqr_bounds p) as Hp.
  set (T := (Rtrigo_def.sin u * Rtrigo_def.sin u)%R) in *.
  set (S := (Rtrigo_def.sin v * Rtrigo_def.sin v)%R) in *.
  set (C := (Rtrigo_def.cos p * Rtrigo_def.cos p)%R) in *.
  replace (T + (C - T) * S)%R with (T * (1 - S) + C * S)%R by ring.
  assert (H1 : (0 <= T * (1 - S))%R) by (apply Rmult_le_pos; lra).
  assert (H2 : (0 <= C * S)%R) by (apply Rmult_le_pos; lra).
  assert (H3 : (T * (1 - S) <= 1 * (1 - S))%R)
    by (apply Rmult_le_compat_r; lra).
  assert (H4 : (C * S <= 1 * S)%R) by (apply Rmult_le_compat_r; lra).
  lra.
Qed.

End GeoMathFacts.

(** ** The clamp that is not there *)

Module ClampFacts.
Import SparkDouble SparkDoubleFacts FloatFacts RecordLoader GeoMath.
Import GeoMathFacts.

(** IEEE: the square root of a negative number is [NaN]. *)
Lemma sqrt_negative (a : float) :
  (a <? 0)%float = true -> PrimFloat.sqrt a = nan.
Proof.
  rewrite ltb_spec.
  replace (Prim2SF 0) with (S754_zero false) by (vm_compute; reflexivity).
  intros Hlt. rewrite <- (SF2Prim_Prim2SF (PrimFloat.sqrt a)), sqrt_spec.
  unfold SFltb in Hlt.
  destruct (Prim2SF a) as [s|s| |s m e]; cbn [SFcompare] in Hlt;
    try discriminate; destruct s; try discriminate; reflexivity.
Qed.

(** IEEE: a product with [NaN] is [NaN]. *)
Lemma mul_nan_r (x y : float) : is_nan y = true -> is_nan (x * y) = true.
Proof.
  intros Hy. apply is_nan_Prim2SF. apply is_nan_Prim2SF in Hy.
  rewrite mul_spec, Hy. unfold SF64mul, SFmul.
  destruct (Prim2SF x); reflexivity.
Qed.

(** The notebook hands [a] to [sqrt] as it is: when rounding leaves [a]
    below zero the distance is [NaN]. *)
Lemma negative_a_gives_nan (M : MathLib) (t : trip) :
  (a_of M t <? 0)%float = true ->
  is_nan (math_asin M nan) = true ->
  is_nan (distance M t) = true.
Proof.
  intros Ha Hasin. unfold distance, distance_expr.
  cbn [mul asin sqrt literal binary64].
  apply mul_nan_r. fold (a_of M t).
  rewrite (sqrt_negative _ Ha). exact Hasin.
Qed.

(** C1, as the notebook has it.  The square root and the arcsine are
    taken of [a] as computed, with no clamp.  In exact arithmetic [a]
    lies in [0, 1] for every pair of points, so both stay inside their
    domains.  In binary64 nothing raises: outside the domain the result
    is [NaN], so the distance is [NaN] whenever the computed [a] is
    negative; at the antipodal pair (0,0), (0,180) it is a number. *)
Theorem unclamped_haversine_domain :
  (forall lat1 lng1 lat2 lng2 : Rdefinitions.R,
     (0 <= @haversine_a _ exact lat1 lng1 lat2 lng2 <= 1)%R) /\
  (forall (M : MathLib) (t : trip),
     (a_of M t <? 0)%float = true ->
     is_nan (math_asin M nan) = true ->
     is_nan (distance M t) = true) /\
  a_of sample_math (trip_between 0 0 0 180)%float = 1%float /\
  is_nan (distance sample_math (trip_between 0 0 0 180)%float) = false.
Proof.
  split; [exact haversine_a_exact_range|].
  split; [exact negative_a_gives_nan|].
  split; vm_compute; reflexivity.
Qed.

Lemma unclamped_haversine_domain_witness :
  (a_of sample_math (trip_between 22 0 158 180)%float <? 0)%float = true /\
  is_nan (distance sample_math (trip_between 22 0 158 180)%float) = true.
Proof.
  split; [vm_compute; reflexivity|].
  apply (proj1 (proj2 unclamped_haversine_domain)); vm_compute; reflexivity.
Defined.

(** What the next example needs of the math library: its values at four
    arguments, the square, and an arcsine that passes [NaN] on. *)
Lemma mirrored_latitudes_nan (M : MathLib) :
  toRadians M 22 = 0x1.893011f31982ep-2%float ->
  toRadians M 158 = 0x1.60f9b305dfa12p+1%float ->
  toRadians M 0 = 0%float ->
  toRadians M 180 = 0x1.921fb54442d18p+1%float ->
  math_sin M 0x1.2fd3b0c77c70cp+0 = 0x1.dab7d7997cb57p-1%float ->
  math_sin M 0x1.921fb54442d18p+0 = 1%float ->
  math_cos M 0x1.893011f31982ep-2 = 0x1.dab7d7997cb58p-1%float ->
  math_cos M 0x1.60f9b305dfa12p+1 = (-0x1.dab7d7997cb57p-1)%float ->
  (forall x, math_pow M x 2 = (x * x)%float) ->
  is_nan (math_asin M nan) = true ->
  is_nan (distance M (trip_between 22 0 158 180)%float) = true.
Proof.
  intros H22 H158 H0 H180 Hs Hs' Hc Hc' Hpow Hasin.
  apply negative_a_gives_nan; [|exact Hasin].
  unfold a_of, haversine_a, trip_between.
  cbn [t_start_lat t_start_lng t_end_lat t_end_lng
       mul add sub div pow radians sin cos asin sqrt literal binary64].
  rewrite H22, H158, H0, H180.
  replace (lit 2) with 2%float by (vm_compute; reflexivity).
  replace ((0x1.60f9b305dfa12p+1 - 0x1.893011f31982ep-2) / 2)%float
    with 0x1.2fd3b0c77c70cp+0%float by (vm_compute; reflexivity).
  replace ((0x1.921fb54442d18p+1 - 0) / 2)%float
    with 0x1.921fb54442d18p+0%float by (vm_compute; reflexivity).
  rewrite Hs, Hs', Hc, Hc', !Hpow. vm_compute. reflexivity.
Qed.

(** C1 fails on the notebook.  From (22, 0) to (158, 180), four finite
    coordinates, the computed [a] is -2^-53: the distance is [NaN],
    where the clamped formula of the specification gives 0. *)
Lemma unclamped_distance_is_nan :
  is_finite 22%float = true /\ is_finite 0%float = true /\
  is_finite 158%float = true /\ is_finite 180%float = true /\
  a_of sample_math (trip_between 22 0 158 180)%float = (-0x1p-53)%float /\
  is_nan (distance sample_math (trip_between 22 0 158 180)%float) = true /\
  @clamped_distance _ (binary64 sample_math) clamp01
    22%float 0%float 158%float 180%float = 0%float.
Proof. repeat split; vm_compute; reflexivity. Qed.

End ClampFacts.

(** ** The notebook as a whole *)

Module NotebookFacts.
Import SparkDouble RecordLoader RecordLoaderFacts GeoMath Buckets.
Import TripAggregator TripAggregatorFacts SortFacts Notebook.
Local Open Scope Z_scope.

(** C6. The revenue the run reports is its long-trip count times 0.2:
    for every count, the one IEEE product of the count (as a double) and
    the double 0.2, with nothing applied after it; for 0, 1 and 1000 long
    trips the product is the double of 0, of 0.2 and of 200. *)
Theorem revenue_is_count_times_amount (M : MathLib) (raw : list row) :
  revenue (analyse M raw) =
    (lit (long_trip_count (analyse M raw)) * per_trip_amount)%float /\
  (forall n : Z,
     Prim2SF (expected_revenue n) =
     SF64mul (Prim2SF (lit n)) (S754_finite false 7205759403792794 (-55))) /\
  expected_revenue 0 = 0%float /\
  expected_revenue 1 = per_trip_amount /\
  expected_revenue 1000 = 200%float.
Proof.
  split; [reflexivity|]. split.
  - intros n. unfold expected_revenue. rewrite mul_spec. f_equal.
  - repeat split; vm_compute; reflexivity.
Qed.

(** C8 fails on the notebook.  A table whose only row is dropped makes
    the run complete like any other, with zeros and an empty bucket
    table; it does not signal an empty result. *)
Lemma empty_input_completes :
  na_drop [unfinished_row] = [] /\
  run sample_math [unfinished_row] =
    Completed {| rows_dropped := 1; long_trip_count := 0;
                 revenue := 0%float; bucket_pd := [] |} /\
  run sample_math [unfinished_row] <> EmptyResult.
Proof. repeat split; discriminate. Qed.

(** C8, as the notebook has it.  When no record survives loading, the
    run completes and reports every row as dropped, no long trip, a
    revenue of 0 and a bucket table without rows. *)
Theorem no_record_survives (M : MathLib) (raw : list row) :
  na_drop raw = [] ->
  run M raw =
    Completed {| rows_dropped := count raw; long_trip_count := 0;
                 revenue := 0%float; bucket_pd := [] |}.
Proof.
  intros Hempty. unfold run, analyse, dropped. rewrite Hempty.
  cbn [map]. unfold bucket_counts, groupBy_count, num_trips, long_trips.
  cbn [map fold_left sort_values fold_right filter].
  f_equal. f_equal.
  change (count (@nil trip)) with 0. lia.
Qed.

Lemma no_record_survives_witness :
  na_drop [unfinished_row] = [] /\
  run sample_math [unfinished_row] =
    Completed {| rows_dropped := count [unfinished_row];
                 long_trip_count := 0; revenue := 0%float; bucket_pd := [] |}.
Proof.
  split; [reflexivity|].
  apply (no_record_survives sample_math [unfinished_row]). reflexivity.
Defined.

(** C4 fails on the notebook.  For the three trips of the end-to-end
    scenario (0.5, 3.0 and 15.0 miles) the sorted table has three rows:
    the empty bucket "4-9" has no row with count 0. *)
Lemma empty_bucket_has_no_row :
  sort_values bucket_order (bucket_counts [0.5; 3; 15]%float) =
    [("0-1", 1); ("2-4", 1); ("10+", 1)]%string /\
  four_buckets [0.5; 3; 15]%float =
    [("0-1", 1); ("2-4", 1); ("4-9", 0); ("10+", 1)]%string /\
  sort_values bucket_order (bucket_counts [0.5; 3; 15]%float) <>
    four_buckets [0.5; 3; 15]%float.
Proof. repeat split; vm_compute; discriminate. Qed.

Lemma sorted_table_is_occupied_buckets_witness :
  sort_values bucket_order (rev (bucket_counts [15; 0.5; 3]%float)) =
    occupied_buckets [0.5; 3; 15]%float.
Proof.
  apply (sorted_table_is_occupied_buckets
           [0.5; 3; 15]%float [15; 0.5; 3]%float).
  - apply (Permutation_cons_app [0.5; 3]%float [] 15%float).
    apply Permutation_refl.
  - apply Permutation_sym, Permutation_rev.
Defined.

(** A trip that ends five seconds before it starts, after one of 1900
    seconds. *)
Lemma long_trip_count_strict_witness :
  let late := {| t_started_at := 0; t_ended_at := 1900000000;
                 t_start_lat := 0%float; t_start_lng := 0%float;
                 t_end_lat := 0%float; t_end_lng := 180%float |} in
  let backwards := {| t_started_at := 10000000; t_ended_at := 5000000;
                      t_start_lat := 0%float; t_start_lng := 0%float;
                      t_end_lat := 0%float; t_end_lng := 0%float |} in
  t_ended_at backwards <= t_started_at backwards /\
  num_trips [late; backwards] = num_trips [late].
Proof.
  cbv zeta. split; [cbn; lia|].
  apply (long_trip_count_strict sample_math
           [{| t_started_at := 0; t_ended_at := 1900000000;
               t_start_lat := 0%float; t_start_lng := 0%float;
               t_end_lat := 0%float; t_end_lng := 180%float |}] []).
  cbn. lia.
Defined.

(** C10. A record whose distance is NaN passes none of the three guards
    of the [when] chain, gets the label "10+" from [otherwise], and is
    counted in that bucket like any other record. *)
Theorem nan_distance_counted_in_10_plus
    (d : float) (pre post : list float) :
  is_nan d = true ->
  guard_0_1 d = false /\ guard_2_4 d = false /\ guard_4_9 d = false /\
  distance_bucket d = "10+"%string /\
  count_of "10+" (bucket_counts (pre ++ d :: post)) =
    count_of "10+" (bucket_counts (pre ++ post)) + 1.
Proof.
  intros Hd.
  destruct (BucketFacts.nan_fails_guards d Hd) as [H1 [H2 [H3 H4]]].
  repeat split; try assumption.
  rewrite <- H4. apply bucket_counts_insert.
Qed.

Lemma nan_distance_counted_in_10_plus_witness :
  is_nan nan = true /\
  distance_bucket nan = "10+"%string /\
  count_of "10+" (bucket_counts [0.5%float; nan]) =
    count_of "10+" (bucket_counts [0.5%float]) + 1.
Proof.
  split; [reflexivity|].
  apply (nan_distance_counted_in_10_plus nan [0.5%float] []). reflexivity.
Defined.

(** The trip from (22, 0) to (158, 180) runs through the whole notebook:
    it is not dropped, its distance is NaN, and the chart shows it as
    the one trip of ten miles or more. *)
Example nan_trip_in_the_chart :
  analyse sample_math
    [ {| started_at := Some 0; ended_at := Some 600000000;
         start_lat := Some 22%float; start_lng := Some 0%float;
         end_lat := Some 158%float; end_lng := Some 180%float |} ] =
  {| rows_dropped := 0; long_trip_count := 0; revenue := 0%float;
     bucket_pd := [("10+"%string, 1)] |}.
Proof. vm_compute. reflexivity. Qed.

(** The end-to-end scenario of the specification (section 8): durations of
    1700, 1900 and 2000 seconds, distances of 0.5, 3.0 and 15.0 miles. *)
Example end_to_end_scenario :
  count_longer_than 1800 [1700; 1900; 2000] = 2 /\
  expected_revenue 2 = 0x1.999999999999ap-2%float /\
  sort_values bucket_order (bucket_counts [0.5; 3; 15]%float) =
    [("0-1", 1); ("2-4", 1); ("10+", 1)]%string.
Proof. repeat split; vm_compute; reflexivity. Qed.

End NotebookFacts.

(** ** More on the loader *)

Module LoaderLaws.
Import RecordLoader RecordLoaderFacts Views.
Local Open Scope Z_scope.

Lemma number_some (c : option float) (x : float) :
  number c = Some x -> c = Some x /\ is_nan x = false.
Proof.
  destruct c as [y|]; cbn; [|discriminate].
  destruct (is_nan y) eqn:Hy; [discriminate|].
  intros [= <-]. auto.
Qed.

(** A kept trip is its row, cell for cell, and its coordinates are
    numbers. *)
Lemma keep_some (r : row) (t : trip) :
  keep r = Some t ->
  r = as_row t /\ coordinates_are_numbers t = true /\ has_na r = false.
Proof.
  intros Hk.
  assert (Hna : has_na r = false).
  { destruct (has_na r) eqn:E; [|reflexivity].
    apply keep_none in E. congruence. }
  revert Hk. unfold keep.
  destruct r as [s e a b c d]; cbn [started_at ended_at start_lat start_lng
                                     end_lat end_lng].
  destruct s as [s|]; [|discriminate]. destruct e as [e|]; [|discriminate].
  destruct (number a) as [a'|] eqn:Ha; [|discriminate].
  destruct (number b) as [b'|] eqn:Hb; [|discriminate].
  destruct (number c) as [c'|] eqn:Hc; [|discriminate].
  destruct (number d) as [d'|] eqn:Hd; [|discriminate].
  apply number_some in Ha, Hb, Hc, Hd.
  destruct Ha as [-> Ha], Hb as [-> Hb], Hc as [-> Hc], Hd as [-> Hd].
  intros [= <-]. unfold as_row, coordinates_are_numbers. cbn.
  rewrite Ha, Hb, Hc, Hd. auto.
Qed.

(** X1. [na.drop()] returns the rows without a missing cell, unchanged and
    in their order, and no coordinate of a returned row is NaN: a NaN can
    reach the [distance] column only out of the computation, never out
    of the input. *)
Theorem na_drop_is_the_complete_rows (df : list row) :
  map as_row (na_drop df) = filter (fun r => negb (has_na r)) df /\
  Forall (fun t => coordinates_are_numbers t = true) (na_drop df).
Proof.
  induction df as [|r df [IH1 IH2]]; [split; constructor|].
  cbn [na_drop filter].
  destruct (keep r) as [t|] eqn:Hk.
  - destruct (keep_some r t Hk) as [Hr [Hc Hna]].
    rewrite Hna. cbn [negb map]. split.
    + now rewrite IH1, Hr.
    + now constructor.
  - apply keep_none in Hk. rewrite Hk. cbn [negb]. auto.
Qed.

Lemma na_drop_app (df df' : list row) :
  na_drop (df ++ df') = na_drop df ++ na_drop df'.
Proof.
  induction df as [|r df IH]; [reflexivity|].
  cbn [app na_drop]. destruct (keep r); cbn [app]; now rewrite IH.
Qed.

Lemma count_na_drop_le (df : list row) : count (na_drop df) <= count df.
Proof.
  induction df as [|r df IH]; [reflexivity|].
  cbn [na_drop]. destruct (keep r); rewrite !count_cons; lia.
Qed.

(** X2. The loader works partition by partition: cleaning two tables one
    after the other is cleaning their concatenation, the numbers of
    dropped rows add up, and the number printed lies between 0 and the
    number of rows read. *)
Theorem loader_over_partitions (df df' : list row) :
  na_drop (df ++ df') = na_drop df ++ na_drop df' /\
  dropped (df ++ df') = dropped df + dropped df' /\
  0 <= dropped df <= count df.
Proof.
  split; [apply na_drop_app|]. unfold dropped.
  rewrite na_drop_app, !count_app.
  pose proof (count_na_drop_le df). pose proof (count_nonneg (na_drop df)).
  lia.
Qed.

Lemma dropped_pos_cons (r : row) (df : list row) :
  keep r = None -> 0 < dropped (r :: df).
Proof.
  intros Hk. unfold dropped. cbn [na_drop]. rewrite Hk, count_cons.
  pose proof (count_na_drop_le df). lia.
Qed.

(** X3. The notebook prints "Dropped 0 rows" exactly when the cleaned table
    is the table that was read. *)
Theorem nothing_dropped_iff_unchanged (df : list row) :
  dropped df = 0 <-> map as_row (na_drop df) = df.
Proof.
  induction df as [|r df IH]; [split; reflexivity|].
  destruct (keep r) as [t|] eqn:Hk.
  - destruct (keep_some r t Hk) as [Hr _].
    assert (Hd : dropped (r :: df) = dropped df).
    { unfold dropped. cbn [na_drop]. rewrite Hk, !count_cons. lia. }
    rewrite Hd, IH. cbn [na_drop]. rewrite Hk. cbn [map]. rewrite <- Hr.
    split; [now intros -> | now intros [= ->]].
  - pose proof (dropped_pos_cons r df Hk) as Hpos. split; [lia|].
    cbn [na_drop]. rewrite Hk. intros Heq.
    apply (f_equal (@List.length row)) in Heq.
    rewrite length_map in Heq. cbn [List.length] in Heq.
    pose proof (count_na_drop_le df) as Hle. unfold count in Hle. lia.
Qed.

Lemma na_drop_perm (df df' : list row) :
  Permutation df df' -> Permutation (na_drop df) (na_drop df').
Proof.
  induction 1 as [|r df df' _ IH|r r' df|df1 df2 df3 _ IH1 _ IH2];
    cbn [na_drop].
  - constructor.
  - destruct (keep r); [now constructor | exact IH].
  - destruct (keep r), (keep r'); try reflexivity. apply perm_swap.
  - now transitivity (na_drop df2).
Qed.

End LoaderLaws.

(** ** More on durations and long trips *)

Module DurationLaws.
Import RecordLoader RecordLoaderFacts GeoMath TripAggregator.
Import TripAggregatorFacts.
Local Open Scope Z_scope.

(** X4. A trip is long exactly when it lasts at least 1801 seconds: the
    cast to whole seconds makes 30 minutes and 999999 microseconds a
    short trip. *)
Theorem long_trip_threshold_in_microseconds (t : trip) :
  (1800 <? tripduration t) = true <->
  1801000000 <= t_ended_at t - t_started_at t.
Proof.
  unfold tripduration. rewrite Z.ltb_lt.
  set (a := t_ended_at t - t_started_at t).
  destruct (Z_lt_le_dec a 0) as [Hneg|Hpos].
  - assert (H0 : 0 <= Z.quot (- a) 1000000) by (apply Z.quot_pos; lia).
    rewrite Z.quot_opp_l in H0 by lia. lia.
  - rewrite Z.quot_div_nonneg by lia.
    pose proof (Z.div_mod a 1000000 ltac:(lia)) as Hdm.
    pose proof (Z.mod_pos_bound a 1000000 ltac:(lia)) as Hb.
    lia.
Qed.

(** X5. For a trip that does not end before it starts, [tripduration] is
    the number of whole seconds elapsed. *)
Theorem tripduration_whole_seconds (t : trip) :
  t_started_at t <= t_ended_at t ->
  0 <= tripduration t /\
  tripduration t * 1000000 <= t_ended_at t - t_started_at t
    < (tripduration t + 1) * 1000000.
Proof.
  intros H. unfold tripduration.
  set (a := t_ended_at t - t_started_at t).
  assert (Ha : 0 <= a) by (unfold a; lia).
  rewrite Z.quot_div_nonneg by lia.
  pose proof (Z.div_mod a 1000000 ltac:(lia)) as Hdm.
  pose proof (Z.mod_pos_bound a 1000000 ltac:(lia)) as Hb.
  pose proof (Z.div_pos a 1000000 Ha ltac:(lia)). lia.
Qed.

Lemma tripduration_whole_seconds_witness :
  let t := {| t_started_at := 0; t_ended_at := 1800999999;
              t_start_lat := 0; t_start_lng := 0;
              t_end_lat := 0; t_end_lng := 0 |} in
  t_started_at t <= t_ended_at t /\ tripduration t = 1800.
Proof.
  cbv zeta. split; [cbn; lia|].
  pose proof (tripduration_whole_seconds
                {| t_started_at := 0; t_ended_at := 1800999999;
                   t_start_lat := 0; t_start_lng := 0;
                   t_end_lat := 0; t_end_lng := 0 |}) as H.
  cbn [t_started_at t_ended_at] in H. specialize (H ltac:(lia)). lia.
Defined.

Lemma num_trips_nonneg_le (df : list trip) : 0 <= num_trips df <= count df.
Proof.
  unfold num_trips, long_trips, count. split; [lia|].
  apply inj_le, filter_length_le.
Qed.

(** X6. The long-trip count works partition by partition: the counts of two
    tables add up to the count of their concatenation, and the count lies
    between 0 and the number of trips. *)
Theorem num_trips_over_partitions (df df' : list trip) :
  num_trips (df ++ df') = num_trips df + num_trips df' /\
  0 <= num_trips df <= count df.
Proof.
  split; [apply num_trips_app | apply num_trips_nonneg_le].
Qed.

Lemma num_trips_perm (df df' : list trip) :
  Permutation df df' -> num_trips df = num_trips df'.
Proof.
  induction 1 as [|t df df' _ IH|t t' df|df1 df2 df3 _ IH1 _ IH2].
  - reflexivity.
  - change (t :: df) with ([t] ++ df). change (t :: df') with ([t] ++ df').
    rewrite !num_trips_app. lia.
  - change (t' :: t :: df) with ([t'] ++ [t] ++ df).
    change (t :: t' :: df) with ([t] ++ [t'] ++ df).
    rewrite !num_trips_app. lia.
  - congruence.
Qed.

End DurationLaws.

(** ** More on [groupBy], [count] and [sort_values] *)

Module TableLaws.
Import SparkDouble RecordLoader RecordLoaderFacts GeoMath Buckets.
Import TripAggregator TripAggregatorFacts SortFacts Views.
Local Open Scope Z_scope.

Lemma groupBy_count_In (k : string) (n : Z) (keys : list string) :
  In (k, n) (groupBy_count keys) <-> n = occurrences k keys /\ 0 < n.
Proof.
  split.
  - intros Hin.
    pose proof (count_of_unique k n _ (NoDup_groupBy_count keys) Hin) as Hc.
    rewrite count_of_groupBy_count in Hc.
    pose proof (groupBy_count_positive keys) as Hp.
    rewrite Forall_forall in Hp. specialize (Hp _ Hin). cbn [snd] in Hp.
    split; [congruence | exact Hp].
  - intros [-> Hpos]. rewrite <- count_of_groupBy_count in *.
    apply count_of_present. lia.
Qed.

Lemma occurrences_zero (k : string) (keys : list string) :
  occurrences k keys = 0 <-> ~ In k keys.
Proof.
  induction keys as [|k' keys IH]; cbn [occurrences In]; [tauto|].
  pose proof (occurrences_nonneg k keys).
  destruct (String.eqb_spec k k') as [->|Hne].
  - split; [lia | tauto].
  - rewrite Z.add_0_l, IH. intuition congruence.
Qed.

(** X7. The table of [groupBy(...).count()]: no key twice; looking a key up
    gives the number of rows that have it, 0 exactly for a key that no
    row has; and the rows of the table are the keys that occur, each
    with that number, never 0. *)
Theorem groupBy_count_table (keys : list string) :
  NoDup (map fst (groupBy_count keys)) /\
  (forall k, count_of k (groupBy_count keys) = occurrences k keys) /\
  (forall k, count_of k (groupBy_count keys) = 0 <-> ~ In k keys) /\
  (forall k n, In (k, n) (groupBy_count keys) <->
               n = occurrences k keys /\ 0 < n).
Proof.
  split; [apply NoDup_groupBy_count|].
  split; [intros k; apply count_of_groupBy_count|].
  split.
  - intros k. rewrite count_of_groupBy_count. apply occurrences_zero.
  - intros k n. apply groupBy_count_In.
Qed.

(** X8. The groups do not depend on the order of the rows, up to their own
    order. *)
Theorem groupBy_count_any_order (keys keys' : list string) :
  Permutation keys keys' ->
  Permutation (groupBy_count keys) (groupBy_count keys').
Proof.
  intros Hp. apply NoDup_Permutation.
  - apply (NoDup_map_inv fst), NoDup_groupBy_count.
  - apply (NoDup_map_inv fst), NoDup_groupBy_count.
  - intros [k n]. rewrite !groupBy_count_In.
    now rewrite (occurrences_perm k keys keys' Hp).
Qed.

Lemma groupBy_count_any_order_witness :
  Permutation (groupBy_count ["10+"; "0-1"; "10+"]%string)
              (groupBy_count ["0-1"; "10+"; "10+"]%string).
Proof.
  apply groupBy_count_any_order. apply perm_swap.
Defined.

Lemma total_tally (key : string) (groups : list (string * Z)) :
  total (tally key groups) = total groups + 1.
Proof.
  induction groups as [|[k n] groups IH]; cbn [tally total]; [lia|].
  destruct (String.eqb key k); cbn [total]; lia.
Qed.

Lemma total_groupBy_count (keys : list string) :
  total (groupBy_count keys) = count keys.
Proof.
  unfold groupBy_count.
  enough (H : forall groups,
             total (fold_left (fun g key => tally key g) keys groups) =
             total groups + count keys) by (rewrite H; reflexivity).
  induction keys as [|key keys IH]; intros groups; cbn [fold_left].
  - unfold count. cbn. lia.
  - rewrite IH, total_tally, count_cons. lia.
Qed.

Lemma total_perm (table table' : list (string * Z)) :
  Permutation table table' -> total table = total table'.
Proof.
  induction 1 as [|[k n] ? ? _ IH|[k n] [k' n'] ?|? ? ? _ IH1 _ IH2];
    cbn [total]; lia.
Qed.


Lemma distinct_keys_antisym
    (categories : list string) (table : list (string * Z)) :
  NoDup (map fst table) ->
  (forall k, In k (map fst table) -> In k categories) ->
  forall a b, In a table -> In b table ->
    row_le categories a b -> row_le categories b a -> a = b.
Proof.
  intros Hnd Hcat [ka na] [kb nb] Ha Hb Hab Hba.
  pose proof (code_le_antisym _ _ Hab Hba) as Hcode. cbn [fst] in Hcode.
  assert (Hina : In ka categories)
    by (apply Hcat; apply (in_map fst) in Ha; exact Ha).
  destruct (category_code_in categories ka Hina) as [i Hi].
  rewrite Hi in Hcode. symmetry in Hcode.
  pose proof (category_code_inj categories ka kb i Hi Hcode) as <-.
  f_equal.
  rewrite <- (count_of_unique ka na table Hnd Ha).
  now rewrite <- (count_of_unique ka nb table Hnd Hb).
Qed.

(** X10. When the keys of a table are distinct categories, as those of the
    bucket table are, the sorted table does not depend on the order of
    the rows given, nor then on the sorting algorithm. *)
Theorem sort_values_any_order
    (categories : list string) (table table' : list (string * Z)) :
  NoDup (map fst table) ->
  (forall k, In k (map fst table) -> In k categories) ->
  Permutation table table' ->
  sort_values categories table = sort_values categories table'.
Proof.
  intros Hnd Hcat Hp.
  apply (sorted_unique categories).
  - intros a b Ha Hb.
    apply (distinct_keys_antisym categories table Hnd Hcat);
      apply (Permutation_in _ (sort_values_perm categories table));
      assumption.
  - apply sort_values_sorted.
  - apply sort_values_sorted.
  - rewrite !sort_values_perm. exact Hp.
Qed.

Lemma sort_values_any_order_witness :
  sort_values bucket_order [("10+", 2); ("0-1", 1)]%string =
  sort_values bucket_order [("0-1", 1); ("10+", 2)]%string.
Proof.
  apply sort_values_any_order.
  - repeat constructor; cbn; intuition discriminate.
  - cbn. intros k [<-|[<-|[]]]; cbn; auto.
  - apply perm_swap.
Defined.

End TableLaws.

(** ** More on the notebook as a whole *)

Module NotebookLaws.
Import SparkDouble RecordLoader RecordLoaderFacts GeoMath Buckets.
Import TripAggregator TripAggregatorFacts SortFacts Notebook Views.
Import LoaderLaws DurationLaws TableLaws.
Local Open Scope Z_scope.

Lemma NoDup_keys_filter (f : string * Z -> bool) (table : list (string * Z)) :
  NoDup (map fst table) -> NoDup (map fst (filter f table)).
Proof.
  induction table as [|r table IH]; cbn [map filter]; [auto|].
  intros Hnd. apply NoDup_cons_iff in Hnd. destruct Hnd as [Hnotin Hnd].
  destruct (f r); cbn [map]; [|now apply IH].
  constructor; [|now apply IH].
  intros Hin. apply Hnotin. apply in_map_iff in Hin.
  destruct Hin as [r' [Hr' Hin]]. apply filter_In in Hin.
  rewrite <- Hr'. apply in_map. tauto.
Qed.

Lemma NoDup_keys_occupied_buckets (distances : list float) :
  NoDup (map fst (occupied_buckets distances)).
Proof.
  unfold occupied_buckets. apply NoDup_keys_filter.
  unfold four_buckets. rewrite map_map. cbn [fst]. rewrite map_id.
  unfold bucket_order. repeat constructor; cbn [In]; intuition discriminate.
Qed.

(** The sorted bucket table of a [distance] column. *)
Lemma sorted_bucket_counts (distances : list float) :
  sort_values bucket_order (bucket_counts distances) =
  occupied_buckets distances.
Proof.
  symmetry. apply (sorted_unique bucket_order).
  - apply (distinct_keys_antisym bucket_order).
    + apply NoDup_keys_occupied_buckets.
    + intros k Hk. apply in_map_iff in Hk. destruct Hk as [[k' n] [<- Hin]].
      unfold occupied_buckets in Hin. apply filter_In in Hin.
      destruct Hin as [Hin _]. apply in_four_buckets in Hin. tauto.
  - apply StronglySorted_filter, four_buckets_sorted.
  - apply sort_values_sorted.
  - rewrite sort_values_perm. apply NoDup_Permutation.
    + apply NoDup_occupied_buckets.
    + apply (NoDup_map_inv fst), NoDup_groupBy_count.
    + intros r. now rewrite bucket_counts_rows.
Qed.

Lemma occupied_buckets_perm (distances distances' : list float) :
  Permutation distances distances' ->
  occupied_buckets distances = occupied_buckets distances'.
Proof.
  intros Hp. unfold occupied_buckets, four_buckets. f_equal.
  apply map_ext. intros label. f_equal.
  apply occurrences_perm, Permutation_map, Hp.
Qed.

Lemma count_perm {A : Type} (l l' : list A) :
  Permutation l l' -> count l = count l'.
Proof. intros Hp. unfold count. now rewrite (Permutation_length Hp). Qed.

(** X11. Every row that was read is accounted for once: it is dropped, or it
    is one of the trips behind exactly one bar of the chart.  The long
    trips are some of these trips. *)
Theorem every_row_dropped_or_charted (M : MathLib) (raw : list row) :
  rows_dropped (analyse M raw) + total (bucket_pd (analyse M raw)) =
    count raw /\
  0 <= long_trip_count (analyse M raw) <= total (bucket_pd (analyse M raw)).
Proof.
  unfold analyse. cbn [rows_dropped bucket_pd long_trip_count].
  rewrite (total_perm _ _ (sort_values_perm bucket_order _)).
  unfold bucket_counts. rewrite total_groupBy_count.
  assert (Hc : count (map distance_bucket (map (distance M) (na_drop raw))) =
               count (na_drop raw))
    by (unfold count; now rewrite !length_map).
  rewrite Hc. unfold dropped.
  pose proof (num_trips_nonneg_le (na_drop raw)). lia.
Qed.

(** X12. The report does not depend on the order in which the rows are read:
    the four results of the notebook are the same for every permutation
    of the input. *)
Theorem report_any_row_order (M : MathLib) (raw raw' : list row) :
  Permutation raw raw' -> analyse M raw = analyse M raw'.
Proof.
  intros Hp. pose proof (na_drop_perm raw raw' Hp) as Hdf.
  unfold analyse.
  rewrite (num_trips_perm _ _ Hdf).
  rewrite !sorted_bucket_counts.
  rewrite (occupied_buckets_perm _ _ (Permutation_map (distance M) Hdf)).
  unfold dropped.
  now rewrite (count_perm _ _ Hp), (count_perm _ _ Hdf).
Qed.

Lemma report_any_row_order_witness :
  analyse sample_math [unfinished_row; as_row (trip_between 0 0 0 180)] =
  analyse sample_math [as_row (trip_between 0 0 0 180); unfinished_row].
Proof.
  apply report_any_row_order. apply perm_swap.
Defined.

End NotebookLaws.

(** ** More on the formula, in exact arithmetic *)

Module ExactLaws.
Import RecordLoader GeoMath GeoMathFacts.

Lemma haversine_a_exact_sym (lat1 lng1 lat2 lng2 : Rdefinitions.R) :
  @haversine_a _ exact lat1 lng1 lat2 lng2 =
  @haversine_a _ exact lat2 lng2 lat1 lng1.
Proof.
  unfold haversine_a.
  cbn [mul add sub div pow radians sin cos asin sqrt literal exact].
  rewrite !powerRZ_2.
  replace ((lat1 * PI / 180 - lat2 * PI / 180) / 2)%R
    with (- ((lat2 * PI / 180 - lat1 * PI / 180) / 2))%R by lra.
  replace ((lng1 * PI / 180 - lng2 * PI / 180) / 2)%R
    with (- ((lng2 * PI / 180 - lng1 * PI / 180) / 2))%R by lra.
  rewrite !sin_neg. ring.
Qed.

(** X13. In exact arithmetic the distance from A to B is the distance from B
    to A. *)
Theorem distance_exact_symmetric (lat1 lng1 lat2 lng2 : Rdefinitions.R) :
  @distance_expr _ exact lat1 lng1 lat2 lng2 =
  @distance_expr _ exact lat2 lng2 lat1 lng1.
Proof.
  unfold distance_expr. now rewrite haversine_a_exact_sym.
Qed.

Lemma asin_nonneg (x : Rdefinitions.R) :
  (0 <= x <= 1)%R -> (0 <= Ratan.asin x)%R.
Proof.
  intros Hx. destruct (Rle_or_lt 0 (Ratan.asin x)) as [H|H]; [exact H|].
  exfalso. pose proof (asin_bound x) as Hb.
  assert (Hs : (Rtrigo_def.sin (Ratan.asin x) < 0)%R).
  { apply sin_lt_0_var; [|exact H]. pose proof PI_RGT_0. lra. }
  rewrite sin_asin in Hs by lra. lra.
Qed.

(** X14. In exact arithmetic the distance lies between 0 and half the
    circumference of the sphere, [R * PI] = 3959 PI miles. *)
Theorem distance_exact_range (lat1 lng1 lat2 lng2 : Rdefinitions.R) :
  (0 <= @distance_expr _ exact lat1 lng1 lat2 lng2 <= IZR R * PI)%R.
Proof.
  unfold distance_expr.
  cbn [mul asin sqrt literal exact].
  pose proof (haversine_a_exact_range lat1 lng1 lat2 lng2) as Ha.
  set (a := @haversine_a _ exact lat1 lng1 lat2 lng2) in *.
  assert (Hs : (0 <= R_sqrt.sqrt a <= 1)%R).
  { split; [apply sqrt_pos|].
    rewrite <- sqrt_1. apply sqrt_le_1_alt. lra. }
  pose proof (asin_nonneg _ Hs) as H0.
  pose proof (asin_bound (R_sqrt.sqrt a)) as Hb.
  replace (IZR (R * 2)) with (IZR R * 2)%R
    by (rewrite mult_IZR; reflexivity).
  assert (HR : (0 <= IZR R)%R) by (apply IZR_le; unfold R; lia).
  split.
  - apply Rmult_le_pos; [lra | exact H0].
  - replace (IZR R * PI)%R with (IZR R * 2 * (PI / 2))%R by lra.
    apply Rmult_le_compat_l; lra.
Qed.

(** X15. In exact arithmetic two antipodal points are half the circumference
    apart: the upper bound is reached. *)
Theorem antipodes_exact (lat lng : Rdefinitions.R) :
  @distance_expr _ exact lat lng (- lat)%R (lng + 180)%R = (IZR R * PI)%R.
Proof.
  unfold distance_expr, haversine_a.
  cbn [mul add sub div pow radians sin cos asin sqrt literal exact].
  rewrite !powerRZ_2.
  replace ((- lat * PI / 180 - lat * PI / 180) / 2)%R
    with (- (lat * PI / 180))%R by lra.
  replace (((lng + 180) * PI / 180 - lng * PI / 180) / 2)%R
    with (PI / 2)%R by lra.
  replace (- lat * PI / 180)%R with (- (lat * PI / 180))%R by lra.
  rewrite sin_neg, cos_neg, sin_PI2.
  pose proof (sin2_cos2 (lat * PI / 180)) as H. unfold Rsqr in H.
  replace (- Rtrigo_def.sin (lat * PI / 180) *
           - Rtrigo_def.sin (lat * PI / 180) +
           Rtrigo_def.cos (lat * PI / 180) *
           Rtrigo_def.cos (lat * PI / 180) * (1 * 1))%R with 1%R by lra.
  rewrite sqrt_1, asin_1.
  replace (IZR (R * 2)) with (IZR R * 2)%R
    by (rewrite mult_IZR; reflexivity).
  lra.
Qed.

End ExactLaws.

(** ** More on IEEE arithmetic *)

Module FloatLaws.
Import SparkDouble SparkDoubleFacts FloatFacts.
Local Open Scope Z_scope.

(** Rounding treats a number and its opposite alike. *)
Lemma binary_round_aux_opp (s : bool) (m e : Z) (l : location) :
  binary_round_aux prec emax (negb s) m e l =
  SFopp (binary_round_aux prec emax s m e l).
Proof.
  unfold binary_round_aux.
  destruct (shr_fexp prec emax m e l) as [mrs' e'].
  destruct (shr_fexp prec emax _ e' loc_Exact) as [mrs'' e''].
  destruct (shr_m mrs''); [reflexivity| |reflexivity].
  destruct (e'' <=? emax - prec); reflexivity.
Qed.

Lemma SFopp_involutive (s : spec_float) : SFopp (SFopp s) = s.
Proof. destruct s as [b|b| |b m e]; cbn; now rewrite ?negb_involutive. Qed.

Lemma binary_normalize_opp (z e : Z) :
  z <> 0 ->
  binary_normalize prec emax (- z) e false =
  SFopp (binary_normalize prec emax z e false).
Proof.
  intros Hz. destruct z as [|p|p]; [congruence| |]; cbn [Z.opp];
    unfold binary_normalize, binary_round;
    destruct (shl_align p e _) as [mz ez].
  - apply (binary_round_aux_opp false).
  - change true with (negb false).
    now rewrite binary_round_aux_opp, SFopp_involutive.
Qed.

(** On specification floats: [y - x] is the opposite of [x - y], unless
    both are [+0]. *)
Lemma SFsub_swap (x y : spec_float) :
  SFsub prec emax y x = SFopp (SFsub prec emax x y) \/
  (SFsub prec emax x y = S754_zero false /\
   SFsub prec emax y x = S754_zero false).
Proof.
  destruct x as [sx|sx| |sx mx ex], y as [sy|sy| |sy my ey];
    cbn [SFsub SFopp]; try (left; reflexivity);
    try (destruct sx, sy; cbn; auto; fail);
    try (destruct sx; cbn; auto; fail);
    try (destruct sy; cbn; auto; fail).
  rewrite (Z.min_comm ey ex).
  set (ez := Z.min ex ey).
  set (a := cond_Zopp sx (Zpos (fst (shl_align mx ex ez)))).
  set (b := cond_Zopp sy (Zpos (fst (shl_align my ey ez)))).
  destruct (Z.eq_dec (a - b) 0) as [Hz|Hz].
  - right. replace (b - a) with 0 by lia. rewrite Hz. auto.
  - left. replace (b - a) with (- (a - b)) by lia.
    now apply binary_normalize_opp.
Qed.

Lemma opp_nan_or_zero_cases (x y : float) :
  (y - x)%float = (- (x - y))%float \/
  ((x - y)%float = 0%float /\ (y - x)%float = 0%float).
Proof.
  destruct (SFsub_swap (Prim2SF x) (Prim2SF y)) as [H|[H1 H2]].
  - left. apply Prim2SF_inj. now rewrite opp_spec, !sub_spec.
  - right. split; apply Prim2SF_inj; rewrite sub_spec; unfold SF64sub;
      [rewrite H1 | rewrite H2]; vm_compute; reflexivity.
Qed.

Lemma xorb_negb_false (s : bool) : xorb (negb s) false = negb (xorb s false).
Proof. destruct s; reflexivity. Qed.

(** Halving commutes with taking the opposite. *)
Lemma div_opp_2 (z : float) : (- z / 2)%float = (- (z / 2))%float.
Proof.
  apply Prim2SF_inj. rewrite opp_spec, !div_spec, opp_spec.
  replace (Prim2SF 2) with (S754_finite false 4503599627370496 (-51))
    by (vm_compute; reflexivity).
  unfold SF64div.
  destruct (Prim2SF z) as [s|s| |s m e]; cbn [SFopp SFdiv];
    rewrite ?xorb_negb_false; try reflexivity.
  destruct (SFdiv_core_binary prec emax (Zpos m) e _ _) as [[mz ez] lz].
  apply binary_round_aux_opp.
Qed.

(** IEEE multiplication is commutative. *)
Lemma mul_comm (x y : float) : (x * y)%float = (y * x)%float.
Proof.
  apply Prim2SF_inj. rewrite !mul_spec. unfold SF64mul.
  destruct (Prim2SF x) as [sx|sx| |sx mx ex],
    (Prim2SF y) as [sy|sy| |sy my ey]; cbn [SFmul];
    rewrite ?(xorb_comm sy sx); try reflexivity.
  now rewrite (Pos.mul_comm my mx), (Z.add_comm ey ex).
Qed.

(** The half difference the other way round is the opposite, or both
    are the same. *)
Lemma half_difference_swap (x y : float) :
  ((x - y) / 2)%float = (- ((y - x) / 2))%float \/
  ((x - y) / 2)%float = ((y - x) / 2)%float.
Proof.
  destruct (opp_nan_or_zero_cases y x) as [H|[H1 H2]].
  - left. now rewrite H, div_opp_2.
  - right. now rewrite H1, H2.
Qed.

(** *** The order on specification floats is transitive at a constant *)

Lemma SFnanSafeCompare_le_trans
    (s s' : spec_float) (m : positive) (e : Z) :
  SFnanSafeCompare s s' <> Gt ->
  SFnanSafeCompare s' (S754_finite false m e) <> Gt ->
  SFnanSafeCompare s (S754_finite false m e) <> Gt.
Proof.
  unfold SFnanSafeCompare.
  destruct s as [b|b| |b m1 e1], s' as [b'|b'| |b' m2 e2];
    cbn [SFcompare]; try congruence;
    try (destruct b; congruence); try (destruct b'; congruence);
    try (destruct b, b'; congruence).
  destruct b, b'; try congruence.
  change (PosDef.Pos.compare_cont Eq m1 m2) with (Pos.compare m1 m2).
  change (PosDef.Pos.compare_cont Eq m2 m) with (Pos.compare m2 m).
  change (PosDef.Pos.compare_cont Eq m1 m) with (Pos.compare m1 m).
  destruct (Z.compare_spec e1 e2), (Z.compare_spec e2 e),
    (Z.compare_spec e1 e); try lia; try congruence;
    destruct (Pos.compare_spec m1 m2), (Pos.compare_spec m2 m),
      (Pos.compare_spec m1 m); try lia; congruence.
Qed.

End FloatLaws.

(** ** More on the distance and its buckets, in binary64 *)

Module DistanceLaws.
Import SparkDouble SparkDoubleFacts FloatFacts FloatLaws RecordLoader.
Import GeoMath Buckets BucketFacts TripAggregator Views.

Lemma squared_sine_swap (M : MathLib) (x y : float) :
  math_pow M (math_sin M (- ((y - x) / 2))) 2 =
    math_pow M (math_sin M ((y - x) / 2)) 2 ->
  math_pow M (math_sin M ((x - y) / 2)) 2 =
    math_pow M (math_sin M ((y - x) / 2)) 2.
Proof.
  intros Heven.
  destruct (half_difference_swap x y) as [-> | ->];
    [exact Heven | reflexivity].
Qed.

(** X16. In binary64 the distance from B to A is the distance from A to B,
    bit for bit, as soon as the squared sine of the library takes the
    same value at each half difference and at its opposite, which every
    odd sine does. *)
Theorem distance_symmetric (M : MathLib) (t : trip) :
  let dlat := ((toRadians M (t_end_lat t) -
                toRadians M (t_start_lat t)) / 2)%float in
  let dlng := ((toRadians M (t_end_lng t) -
                toRadians M (t_start_lng t)) / 2)%float in
  math_pow M (math_sin M (- dlat)) 2 = math_pow M (math_sin M dlat) 2 ->
  math_pow M (math_sin M (- dlng)) 2 = math_pow M (math_sin M dlng) 2 ->
  distance M (reversed t) = distance M t.
Proof.
  cbv zeta. intros Hlat Hlng.
  unfold distance, distance_expr, haversine_a, reversed.
  cbn [t_start_lat t_start_lng t_end_lat t_end_lng
       mul add sub div pow radians sin cos asin sqrt literal binary64].
  replace (lit 2) with 2%float by (vm_compute; reflexivity).
  rewrite (squared_sine_swap M _ _ Hlat), (squared_sine_swap M _ _ Hlng).
  rewrite (mul_comm (math_cos M (toRadians M (t_end_lat t)))).
  reflexivity.
Qed.

(** From (0, 0) to (0, 180) and back. *)
Lemma distance_symmetric_witness :
  distance odd_sample_math (reversed (trip_between 0 0 0 180)) =
  distance odd_sample_math (trip_between 0 0 0 180).
Proof.
  apply (distance_symmetric odd_sample_math (trip_between 0 0 0 180));
    vm_compute; reflexivity.
Defined.

(** X17. The lower bounds in the second and third guard of the [when] chain
    are redundant: the chain gives the same label as the chain of the
    three upper bounds alone. *)
Theorem lower_bounds_are_redundant (d : float) :
  distance_bucket d =
  (if le d (lit 1) then "0-1"
   else if le d (lit 4) then "2-4"
   else if le d (lit 9) then "4-9"
   else "10+")%string.
Proof.
  unfold distance_bucket, guard_0_1, guard_2_4, guard_4_9, le, gt.
  destruct (threshold_cases d); reflexivity.
Qed.

Lemma le_thresholds (d d' : float) (k : Z) (m : positive) (e : Z) :
  Prim2SF (lit k) = S754_finite false m e ->
  is_nan d' = false ->
  le d d' = true ->
  nanSafeCompareDoubles d' (lit k) <> Gt ->
  nanSafeCompareDoubles d (lit k) <> Gt.
Proof.
  intros Hk Hd' Hle.
  assert (Hnk : is_nan (lit k) = false)
    by (apply not_nan_Prim2SF; rewrite Hk; discriminate).
  rewrite !(nanSafeCompareDoubles_SF _ (lit k)) by exact Hnk.
  rewrite Hk. apply SFnanSafeCompare_le_trans.
  rewrite <- nanSafeCompareDoubles_SF by exact Hd'.
  unfold le in Hle. destruct (nanSafeCompareDoubles d d'); congruence.
Qed.

Lemma bucket_rank_at_most_3 (d : float) :
  code_le (bucket_rank d) (Some 3%nat) = true.
Proof.
  unfold bucket_rank, distance_bucket, guard_0_1, guard_2_4, guard_4_9,
    le, gt.
  destruct (threshold_cases d); reflexivity.
Qed.

(** X18. The buckets follow the distances: of two trips, the one with the
    larger distance (NaN counting as the largest) is never in a bucket
    that comes earlier in the display order. *)
Theorem bucket_rank_monotone (d d' : float) :
  le d d' = true ->
  code_le (bucket_rank d) (bucket_rank d') = true.
Proof.
  intros Hle. destruct (is_nan d') eqn:Hd'.
  - destruct (nan_fails_guards d' Hd') as [_ [_ [_ Hb]]].
    unfold bucket_rank at 2. rewrite Hb. apply bucket_rank_at_most_3.
  - pose proof (le_thresholds d d' 1 _ _ lit_1_SF Hd' Hle) as H1.
    pose proof (le_thresholds d d' 4 _ _ lit_4_SF Hd' Hle) as H4.
    pose proof (le_thresholds d d' 9 _ _ lit_9_SF Hd' Hle) as H9.
    revert H1 H4 H9.
    unfold bucket_rank, distance_bucket, guard_0_1, guard_2_4, guard_4_9,
      le, gt.
    destruct (threshold_cases d), (threshold_cases d');
      intros H1 H4 H9; try reflexivity;
      try (exfalso; apply H1; [discriminate | reflexivity]);
      try (exfalso; apply H4; [discriminate | reflexivity]);
      try (exfalso; apply H9; [discriminate | reflexivity]).
Qed.

Lemma bucket_rank_monotone_witness :
  le 3 15 = true /\
  code_le (bucket_rank 3) (bucket_rank 15) = true.
Proof.
  split; [vm_compute; reflexivity|].
  apply (bucket_rank_monotone 3 15). vm_compute. reflexivity.
Defined.

End DistanceLaws.
